(** * Verification development for the adk-js agent runtime and its samples.

    The file embeds, in order:
    - [CheckPrime]: the [check_prime] FunctionTool of the sequential sample
      (src/unnamed/part_001);
    - [AgentGraph]: [buildGraph] / [getAgentGraph] of
      src/dev/src/server/agent_graph.ts;
    - [GeminiStream]: the two versions of [Gemini.generateContentAsync]
      (src/dev/test/server/agent_graph_test.ts);
    - [GeminiConfig] and [GeminiConfigSamples]: the [Gemini] constructor,
      its API clients, [connect] and [preprocessRequest] of the same file;
    - [Runtime] and [RuntimeSamples]: the event-sourced session and the
      agent composition semantics of the core, whose sources are not part
      of the files at hand and are modelled from the specification, with
      sample agents run by a deterministic scheduler.

    The proofs follow, one module per embedding. *)

From Stdlib Require Import ZArith String Ascii Bool List Lia.
From stdpp Require Import base gmap strings list.

(* ------------------------------------------------------------------ *)
(** ** The [check_prime] tool *)
(* ------------------------------------------------------------------ *)

Module CheckPrime.

Open Scope Z_scope.

(** [for (let i = 2; i <= Math.floor(number ** 0.5) + 1; i++)
       if (number % i === 0) { isPrime = false; break; }]
    run for [steps] iterations starting at [i]. JS [%] on numbers is the
    truncated remainder [Z.rem]; [Math.floor(number ** 0.5)] on a safe
    integer is its integer square root [Z.sqrt]. *)
Fixpoint trial_loop (number i : Z) (steps : nat) : bool :=
  match steps with
  | O => true
  | S k => if Z.rem number i =? 0 then false else trial_loop number (i + 1) k
  end.

(** The number of iterations of the loop: [i] runs over
    [2 .. Math.floor(number ** 0.5) + 1]. *)
Definition isPrime (number : Z) : bool :=
  trial_loop number 2 (Z.to_nat (Z.sqrt number + 1 - 2 + 1)).

(** [primes.add(number)] on a JS [Set]: insertion order, no duplicate. *)
Definition set_add (primes : list Z) (number : Z) : list Z :=
  if existsb (Z.eqb number) primes then primes else primes ++ [number].

(** The [for (const number of numbers)] loop of [execute]. *)
Fixpoint collect (numbers : list Z) (primes : list Z) : list Z :=
  match numbers with
  | [] => primes
  | number :: rest =>
      if number <=? 1 then collect rest primes
      else if number =? 2 then collect rest (set_add primes number)
      else if isPrime number then collect rest (set_add primes number)
      else collect rest primes
  end.

(** Decimal rendering of an integer, as [String(number)] does for a safe
    integer. *)
Fixpoint digits_aux (fuel : nat) (n : Z) (acc : string) : string :=
  match fuel with
  | O => acc
  | S f =>
      let acc' := String (ascii_of_nat (48 + Z.to_nat (n mod 10))) acc in
      if n <? 10 then acc' else digits_aux f (n / 10) acc'
  end.

Definition number_to_string (n : Z) : string :=
  if n <? 0 then String "-" (digits_aux (S (Z.to_nat (Z.log2 (- n)))) (- n) "")
  else digits_aux (S (Z.to_nat (Z.log2 n))) n "".

Definition no_primes_msg : string := "No prime numbers found.".
Definition primes_suffix : string := " are prime numbers.".

(** [checkPrimeTool.execute({numbers})]. *)
Definition execute (numbers : list Z) : string :=
  let primes := collect numbers [] in
  if (length primes =? 0)%nat then no_primes_msg
  else String.append (String.concat ", " (map number_to_string primes))
         primes_suffix.

(** Primality as the claim states it: greater than 1, no divisor between
    2 and the square root. *)
Definition prime_spec (n : Z) : Prop :=
  1 < n /\ forall d, 2 <= d -> d * d <= n -> Z.rem n d <> 0.

(** The test the loop body applies to each [number]. *)
Definition kept (number : Z) : bool :=
  if number <=? 1 then false
  else if number =? 2 then true
  else isPrime number.

End CheckPrime.

(* ------------------------------------------------------------------ *)
(** ** Agent graph rendering (src/dev/src/server/agent_graph.ts) *)
(* ------------------------------------------------------------------ *)

Module AgentGraph.

Open Scope string_scope.

(** The classes [buildGraph] distinguishes with [instanceof]. *)
Inductive AgentClass := LlmAgentC | SequentialAgentC | LoopAgentC | ParallelAgentC
                      | OtherAgentC.
Inductive ToolClass := FunctionToolC | AgentToolC | OtherToolC.

Record BaseTool := mkTool { tool_class : ToolClass; tool_name : string }.

(** A [BaseAgent]: its class, [name], [subAgents] and, for an [LlmAgent],
    the result of [canonicalTools()]. *)
#[warnings="-register-all"]
Inductive BaseAgent :=
  mkAgent (agent_class : AgentClass) (agent_name : string)
          (subAgents : list BaseAgent) (canonicalTools : list BaseTool).

Definition agent_class (a : BaseAgent) : AgentClass :=
  match a with mkAgent c _ _ _ => c end.
Definition agent_name (a : BaseAgent) : string :=
  match a with mkAgent _ n _ _ => n end.
Definition subAgents (a : BaseAgent) : list BaseAgent :=
  match a with mkAgent _ _ s _ => s end.

Inductive ToolOrAgent := IsAgent (a : BaseAgent) | IsTool (t : BaseTool).

(** Thrown JS errors. *)
Inductive JsError :=
  | TypeError (* property read on [undefined] *)
  | UnsupportedToolType.

(** Graph mutations, addressed to a graph object by its identity:
    the root graph is [0], each [new Subgraph] gets a fresh identity. *)
Inductive Endpoint := GraphNode (name : string) | FreshNode (name : string).
Inductive GraphOp :=
  | AddSubgraph (gid : nat) (child : nat) (name : string)
  | AddNode (gid : nat) (name label style shape : string)
  | AddEdge (gid : nat) (from to : Endpoint) (attrs : list (string * string))
  | AddBareNode (gid : nat) (name : string).

Record Store := mkStore { next_gid : nat; ops : list GraphOp }.

(** A small exception-and-state monad for the async functions. *)
Inductive Result (A : Type) := Ok (a : A) (st : Store) | Throw (e : JsError).
Arguments Ok {A}. Arguments Throw {A}.

Definition M (A : Type) := Store -> Result A.
Definition ret {A} (a : A) : M A := fun st => Ok a st.
Definition bind {A B} (m : M A) (k : A -> M B) : M B :=
  fun st => match m st with Ok a st' => k a st' | Throw e => Throw e end.
Definition throw {A} (e : JsError) : M A := fun _ => Throw e.
Definition emit (op : GraphOp) : M unit :=
  fun st => Ok tt (mkStore (next_gid st) (ops st ++ [op])).
Definition new_subgraph (parent : nat) (name : string) : M nat :=
  fun st => Ok (next_gid st)
    (mkStore (S (next_gid st)) (ops st ++ [AddSubgraph parent (next_gid st) name])).

Notation "'let*' x ':=' m 'in' k" := (bind m (fun x => k))
  (at level 200, x name, m at level 100, k at level 200).

(** [arr[i].name] where [arr[i]] may be [undefined]. *)
Definition name_at (l : list BaseAgent) (i : nat) : M string :=
  match nth_error l i with Some a => ret (agent_name a) | None => throw TypeError end.

Definition getNodeName (x : ToolOrAgent) : string :=
  match x with
  | IsAgent a =>
      match agent_class a with
      | SequentialAgentC => agent_name a ++ " (Sequential Agent)"
      | LoopAgentC => agent_name a ++ " (Loop Agent)"
      | ParallelAgentC => agent_name a ++ " (Parallel Agent)"
      | _ => agent_name a
      end
  | IsTool t => tool_name t
  end.

(** The caption prefixes as the source file spells them (byte for
    byte, as they stand in it). *)
Definition robot : string := "ü§ñ ".
Definition wrench : string := "üîß ".

Definition getNodeCaption (x : ToolOrAgent) : string :=
  match x with
  | IsAgent a => robot ++ agent_name a
  | IsTool t =>
      match tool_class t with
      | FunctionToolC => wrench ++ tool_name t
      | AgentToolC => robot ++ tool_name t
      | OtherToolC => wrench ++ tool_name t
      end
  end.

Definition getNodeShape (x : ToolOrAgent) : string :=
  match x with IsAgent _ => "ellipse" | IsTool _ => "box" end.

Definition shouldBuildAgentCluster (x : ToolOrAgent) : bool :=
  match x with
  | IsAgent a =>
      match agent_class a with
      | SequentialAgentC | LoopAgentC | ParallelAgentC => true
      | _ => false
      end
  | IsTool _ => false
  end.

Definition LIGHT_GREEN := "#69CB87".
Definition LIGHT_GRAY := "#cccccc".

(** Whether [graph] holds a node of id [name]: a ts-graphviz graph keeps
    its own nodes in a map from their ids, filled by [addNode] and by
    [node(id)]. *)
Definition hasNode (graph : nat) (name : string) (os : list GraphOp) : bool :=
  existsb (fun op => match op with
                     | AddNode g n _ _ _ | AddBareNode g n => Nat.eqb g graph && String.eqb n name
                     | _ => false
                     end) os.

(** [graph.node(name)]: the node of [graph] with that id, created without
    attributes and added to [graph] when there is none. *)
Definition graph_node (graph : nat) (name : string) : M Endpoint :=
  fun st => if hasNode graph name (ops st) then Ok (GraphNode name) st
            else Ok (GraphNode name) (mkStore (next_gid st) (ops st ++ [AddBareNode graph name])).

(** [drawEdge], closing over [graph], [rootAgent] and [highlightsPairs]. *)
Fixpoint drawEdge_pairs (graph : nat) (rootAgent : BaseAgent)
    (pairs : list (string * string)) (fromName toName : string) : M unit :=
  match pairs with
  | (highlightFrom, highlightTo) :: rest =>
      if String.eqb fromName highlightFrom && String.eqb toName highlightTo then
        let* f := graph_node graph fromName in
        let* t := graph_node graph toName in
        emit (AddEdge graph f t [("color", LIGHT_GREEN)])
      else if String.eqb fromName highlightTo && String.eqb toName highlightFrom then
        let* f := graph_node graph fromName in
        let* t := graph_node graph toName in
        emit (AddEdge graph f t [("color", LIGHT_GREEN); ("dir", "back")])
      else drawEdge_pairs graph rootAgent rest fromName toName
  | [] =>
      if shouldBuildAgentCluster (IsAgent rootAgent) then
        emit (AddEdge graph (FreshNode fromName) (FreshNode toName)
                [("color", LIGHT_GREEN)])
      else
        emit (AddEdge graph (FreshNode fromName) (FreshNode toName)
                [("arrowhead", "none"); ("color", LIGHT_GRAY)])
  end.

Definition drawEdge graph rootAgent highlightsPairs fromName toName :=
  drawEdge_pairs graph rootAgent highlightsPairs fromName toName.

(** [highlightsPair.includes(name)]. *)
Definition includes (p : string * string) (name : string) : bool :=
  String.eqb (fst p) name || String.eqb (snd p) name.

Definition drawLeafNode (graph : nat) (x : ToolOrAgent) (highlighted : bool) : M unit :=
  emit (AddNode graph (getNodeName x) (getNodeCaption x)
          (if highlighted then "filled,rounded" else "rounded") (getNodeShape x)).

(** [drawNode(toolOrAgent)], given the [buildCluster(cluster, rootAgent)]
    computation [cluster_body] it runs when [toolOrAgent] draws as a
    cluster. *)
Definition drawNode (graph : nat) (highlightsPairs : list (string * string))
    (cluster_body : nat -> M unit) (x : ToolOrAgent) : M unit :=
  let name := getNodeName x in
  let asCluster := shouldBuildAgentCluster x in
  let as_cluster :=
    let* c := new_subgraph graph ("cluster_" ++ name) in cluster_body c in
  if existsb (fun p => includes p name) highlightsPairs then
    (if asCluster then as_cluster else drawLeafNode graph x true)
  else if asCluster then as_cluster
  else drawLeafNode graph x false.

(** [for (const x of xs) body(index, x)]. *)
Fixpoint forEach_from {A} (i : nat) (xs : list A) (body : nat -> A -> M unit) : M unit :=
  match xs with
  | [] => ret tt
  | x :: rest => let* _ := body i x in forEach_from (S i) rest body
  end.

(** [buildGraph(graph, rootAgent, highlightsPairs, parentAgent)], with its
    inner [buildCluster] inlined (it is only ever applied to [rootAgent])
    and recursion on the sub-agents of [rootAgent]. *)
Fixpoint buildGraph (graph : nat) (rootAgent : BaseAgent)
    (highlightsPairs : list (string * string)) (parentAgent : option BaseAgent)
    {struct rootAgent} : M unit :=
  match rootAgent with
  | mkAgent cls nm subs tls =>
    let recurse := fix go (g : nat) (l : list BaseAgent) (i : nat)
                      (after : nat -> BaseAgent -> M unit) : M unit :=
        match l with
        | [] => ret tt
        | sub :: rest =>
            let* _ := buildGraph g sub highlightsPairs (Some rootAgent) in
            let* _ := after i sub in go g rest (S i) after
        end in
    let edge := drawEdge graph rootAgent highlightsPairs in
    let len := length subs in
    let buildCluster (subgraph : nat) : M unit :=
      match cls with
      | LoopAgentC =>
          let* _ := (match parentAgent with
                     | Some p => let* n0 := name_at subs 0 in edge (agent_name p) n0
                     | None => ret tt
                     end) in
          recurse subgraph subs 0 (fun currLength _ =>
            let* cur := name_at subs currLength in
            let* adj := (if Nat.eqb currLength (len - 1) then name_at subs 0
                         else name_at subs (S currLength)) in
            edge cur adj)
      | SequentialAgentC =>
          let* _ := (match parentAgent with
                     | Some p => let* n0 := name_at subs 0 in edge (agent_name p) n0
                     | None => ret tt
                     end) in
          recurse subgraph subs 0 (fun currLength _ =>
            if negb (Nat.eqb currLength (len - 1)) then
              let* cur := name_at subs currLength in
              let* nxt := name_at subs (S currLength) in
              edge cur nxt
            else ret tt)
      | ParallelAgentC =>
          recurse subgraph subs 0 (fun _ sub =>
            match parentAgent with
            | Some p => edge (agent_name p) (agent_name sub)
            | None => ret tt
            end)
      | _ =>
          recurse subgraph subs 0 (fun _ sub => edge (agent_name rootAgent) (agent_name sub))
      end in
    let* _ := drawNode graph highlightsPairs buildCluster (IsAgent rootAgent) in
    let* _ := recurse graph subs 0 (fun _ sub =>
      if negb (shouldBuildAgentCluster (IsAgent sub)) &&
         negb (shouldBuildAgentCluster (IsAgent rootAgent))
      then edge (agent_name rootAgent) (agent_name sub) else ret tt) in
    (match cls with
     | LlmAgentC =>
         forEach_from 0 tls (fun _ tool =>
           let* _ := drawNode graph highlightsPairs buildCluster (IsTool tool) in
           edge (agent_name rootAgent) (getNodeName (IsTool tool)))
     | _ => ret tt
     end)
  end.

(** [getAgentGraph(rootAgent, highlightsPairs)]: a fresh root graph [0]. *)
Definition getAgentGraph (rootAgent : BaseAgent) (highlightsPairs : list (string * string))
    : Result unit :=
  buildGraph 0 rootAgent highlightsPairs None (mkStore 1 []).

(** The loop [for (const subAgent of l) { await buildGraph(g, subAgent,
    highlightsPairs, rootAgent); after(i, subAgent); i++ }] that
    [buildGraph] runs on the sub-agents of [rootAgent]: the inner [recurse]
    of [buildGraph], named. *)
Definition recurse_with (highlightsPairs : list (string * string)) (rootAgent : BaseAgent) :=
  fix go (g : nat) (l : list BaseAgent) (i : nat)
      (after : nat -> BaseAgent -> M unit) {struct l} : M unit :=
    match l with
    | [] => ret tt
    | sub :: rest =>
        let* _ := buildGraph g sub highlightsPairs (Some rootAgent) in
        let* _ := after i sub in go g rest (S i) after
    end.

(** Agent trees on which [buildGraph] never reads [subAgents[0]] of an
    empty array: every [LoopAgent] and [SequentialAgent] drawn with a
    parent has a sub-agent. Every agent below the root is drawn with a
    parent. *)
Fixpoint wellFormed (a : BaseAgent) (hasParent : bool) : bool :=
  match a with
  | mkAgent cls _ subs _ =>
      (match cls with
       | LoopAgentC | SequentialAgentC => negb hasParent || negb (Nat.eqb (length subs) 0)
       | _ => true
       end) && forallb (fun s => wellFormed s true) subs
  end.

(** What a computation may do to the store: allocate graph identities and
    append operations. *)
Definition extends (st st' : Store) : Prop :=
  (next_gid st <= next_gid st')%nat /\ exists new, ops st' = (ops st ++ new)%list.

(** A computation that either extends the store ([b = true]) or throws a
    [TypeError] ([b = false]). *)
Definition GoodM {A} (m : M A) (b : bool) : Prop :=
  forall st, match m st with
             | Ok _ st' => b = true /\ extends st st'
             | Throw e => e = TypeError /\ b = false
             end.

(** Induction on agent trees, with the hypothesis on every sub-agent. *)
Definition BaseAgent_ind' (P : BaseAgent -> Prop)
    (H : forall cls nm subs tls, Forall P subs -> P (mkAgent cls nm subs tls)) :
    forall a, P a :=
  fix F a :=
    match a with
    | mkAgent cls nm subs tls =>
        H cls nm subs tls
          ((fix G (l : list BaseAgent) : Forall P l :=
              match l with
              | [] => @List.Forall_nil _ P
              | x :: r => @List.Forall_cons _ P x r (F x) (G r)
              end) subs)
    end.

End AgentGraph.

(* ------------------------------------------------------------------ *)
(** ** [Gemini.generateContentAsync], original and revised *)
(* ------------------------------------------------------------------ *)

Module GeminiStream.

Open Scope string_scope.

Record FunctionCall := mkFunctionCall { fc_name : string; fc_args : string }.

(** A [Part] of @google/genai, with the fields the two versions read or
    write; [None] is an absent field. *)
Record Part := mkPart {
  text : option string;
  thought : option bool;
  thoughtSignature : option string;
  functionCall : option FunctionCall;
  inlineData : option string }.

Record Content := mkContent { role : option string; parts : option (list Part) }.

Definition set_sig (p : Part) (s : option string) : Part :=
  mkPart (text p) (thought p) s (functionCall p) (inlineData p).

(** JS truthiness of an optional string and of a string. *)
Definition truthy (o : option string) : bool :=
  match o with Some s => negb (String.eqb s "") | None => false end.
Definition str_truthy (s : string) : bool := negb (String.eqb s "").
Definition or_empty (o : option string) : string :=
  match o with Some s => s | None => "" end.

Definition has_fc (p : Part) : bool :=
  match functionCall p with Some _ => true | None => false end.

(** [createPartFromText(text)] and the thought part literal. *)
Definition createPartFromText (t : string) : Part := mkPart (Some t) None None None None.
Definition thoughtPart (thoughtText : string) (sig : option string) : Part :=
  mkPart (Some thoughtText) (Some true)
    (if truthy sig then sig else None) None None.

(** [for (const part of parts) if (part.functionCall && !applied)
       { if (!part.thoughtSignature) part.thoughtSignature = s; applied = true; }] *)
Fixpoint sig_on_first_call_if_absent (s : option string) (ps : list Part) : list Part :=
  match ps with
  | [] => []
  | p :: rest =>
      if has_fc p then (if truthy (thoughtSignature p) then p else set_sig p s) :: rest
      else p :: sig_on_first_call_if_absent s rest
  end.

(** [for (const part of parts) if (part.functionCall)
       { part.thoughtSignature = s; break; }] *)
Fixpoint sig_on_first_call (s : option string) (ps : list Part) : list Part :=
  match ps with
  | [] => []
  | p :: rest => if has_fc p then set_sig p s :: rest else p :: sig_on_first_call s rest
  end.

(** [for (const part of parts) if (part.functionCall && !part.thoughtSignature)
       { part.thoughtSignature = s; break; }] *)
Fixpoint sig_on_first_unsigned_call (s : option string) (ps : list Part) : list Part :=
  match ps with
  | [] => []
  | p :: rest =>
      if has_fc p && negb (truthy (thoughtSignature p)) then set_sig p s :: rest
      else p :: sig_on_first_unsigned_call s rest
  end.

(** The first part with a truthy [thoughtSignature]. *)
Fixpoint first_signed (ps : list Part) : option Part :=
  match ps with
  | [] => None
  | p :: rest => if truthy (thoughtSignature p) then Some p else first_signed rest
  end.

Definition count_signed (ps : list Part) : nat :=
  length (filter (fun p => truthy (thoughtSignature p)) ps).

Section Generate.

(** The API client's raw response type, and the parts of [LlmResponse]
    neither version touches. *)
Variable GenerateContentResponse : Type.
Variable UsageMetadata : Type.
Variable LlmExtra : Type.

Record LlmResponse := mkLlmResponse {
  content : option Content;
  usageMetadata : option UsageMetadata;
  partial : option bool;
  extra : option LlmExtra }.

(** [createLlmResponse] (llm_response.js) and
    [response?.candidates?.[0]?.finishReason === FinishReason.STOP]. *)
Variable createLlmResponse : GenerateContentResponse -> LlmResponse.
Variable finishReasonIsStop : GenerateContentResponse -> bool.

Definition resp_parts (r : LlmResponse) : option (list Part) :=
  match content r with Some c => parts c | None => None end.

Definition with_parts (r : LlmResponse) (ps : list Part) : LlmResponse :=
  match content r with
  | Some c => mkLlmResponse (Some (mkContent (role c) (Some ps))) (usageMetadata r)
                (partial r) (extra r)
  | None => r
  end.

Definition set_partial (r : LlmResponse) : LlmResponse :=
  mkLlmResponse (content r) (usageMetadata r) (Some true) (extra r).

Definition firstPart (r : LlmResponse) : option Part :=
  match resp_parts r with Some (p :: _) => Some p | _ => None end.

(** [llmResponse.content?.parts?.some((part) => part.functionCall)]. *)
Definition hasFunctionCalls (r : LlmResponse) : bool :=
  match resp_parts r with Some ps => existsb has_fc ps | None => false end.

(** The loop-local variables of the streaming branch. *)
Record StreamSt := mkStreamSt {
  thoughtText : string;
  thoughtSig : option string;
  accText : string;
  usage : option UsageMetadata;
  lastResponse : option GenerateContentResponse }.

Definition init_st : StreamSt := mkStreamSt "" None "" None None.

Definition reset (st : StreamSt) : StreamSt :=
  mkStreamSt "" None "" (usage st) (lastResponse st).

(** The flushed parts: the thought part, then the text part. *)
Definition flush_parts (mkText : string -> Part) (st : StreamSt) : list Part :=
  (if str_truthy (thoughtText st) then [thoughtPart (thoughtText st) (thoughtSig st)]
   else []) ++
  (if str_truthy (accText st) then [mkText (accText st)] else []).

Definition flush_response (ps : list Part) (u : option UsageMetadata) : LlmResponse :=
  mkLlmResponse (Some (mkContent (Some "model") (Some ps))) u None None.

(** Accumulation of the first part's text, common to both versions; it
    returns the new variables and whether the first part was a signed
    thought. *)
Definition accumulate (st : StreamSt) (p : Part) : StreamSt * bool :=
  match thought p with
  | Some true =>
    let tt := thoughtText st ++ or_empty (text p) in
    if truthy (thoughtSignature p) then
      (mkStreamSt tt (thoughtSignature p) (accText st) (usage st) (lastResponse st), true)
    else (mkStreamSt tt (thoughtSig st) (accText st) (usage st) (lastResponse st), false)
  | _ => (mkStreamSt (thoughtText st) (thoughtSig st) (accText st ++ or_empty (text p))
          (usage st) (lastResponse st), false)
  end.

Definition first_text_truthy (r : LlmResponse) : option Part :=
  match firstPart r with Some p => if truthy (text p) then Some p else None | None => None end.

Definition may_flush (st : StreamSt) (r : LlmResponse) : bool :=
  (str_truthy (thoughtText st) || str_truthy (accText st)) &&
  (match firstPart r with None => true | Some p => if inlineData p then false else true end).

(** *** Original version *)

(** One iteration of [for await (const response of streamResult)]. *)
Definition orig_chunk (st0 : StreamSt) (response : GenerateContentResponse)
    : StreamSt * list LlmResponse :=
  let llmResponse := createLlmResponse response in
  let st := mkStreamSt (thoughtText st0) (thoughtSig st0) (accText st0)
              (usageMetadata llmResponse) (Some response) in
  match first_text_truthy llmResponse with
  | Some p => let '(st', _) := accumulate st p in (st', [set_partial llmResponse])
  | None =>
      if may_flush st llmResponse then
        (reset st, [flush_response (flush_parts createPartFromText st)
                      (usageMetadata llmResponse); llmResponse])
      else (st, [llmResponse])
  end.

Fixpoint orig_loop (st : StreamSt) (rs : list GenerateContentResponse)
    : StreamSt * list LlmResponse :=
  match rs with
  | [] => (st, [])
  | r :: rest =>
      let '(st1, out1) := orig_chunk st r in
      let '(st2, out2) := orig_loop st1 rest in (st2, app out1 out2)
  end.

(** The flush after the loop, when the last response finished with STOP. *)
Definition final_flush (st : StreamSt) : list LlmResponse :=
  if (str_truthy (accText st) || str_truthy (thoughtText st)) &&
     (match lastResponse st with Some r => finishReasonIsStop r | None => false end)
  then [flush_response (flush_parts (fun t => mkPart (Some t) None None None None) st)
          (usage st)]
  else [].

(** [generateContentAsync(llmRequest, stream)], original: the responses it
    yields, given the API client's streamed responses [rs] (for
    [generateContentStream]) and its single response [r] (for
    [generateContent]). *)
Definition generateContentAsync_orig (stream : bool)
    (rs : list GenerateContentResponse) (r : GenerateContentResponse) : list LlmResponse :=
  if stream then let '(st, out) := orig_loop init_st rs in app out (final_flush st)
  else [createLlmResponse r].

(** *** Revised version, with [cachedThoughtSignature]

    [isGemini3Preview] is the instance field set from
    [isGemini3PreviewModel(model)]; [cached] is the instance field
    [cachedThoughtSignature], threaded through and returned. Logging is
    omitted. *)

(** Step 1: [if (this.isGemini3Preview && llmResponse.content?.parts)
    for (const part of parts) if (part.thoughtSignature && !thoughtSignature)
    { thoughtSignature = ...; this.cachedThoughtSignature = ...; break; }] *)
Definition rev_capture (isGemini3Preview : bool) (cached : option string)
    (st : StreamSt) (r : LlmResponse) : StreamSt * option string :=
  if isGemini3Preview then
    match resp_parts r with
    | Some ps =>
        if truthy (thoughtSig st) then (st, cached)
        else match first_signed ps with
             | Some p => (mkStreamSt (thoughtText st) (thoughtSignature p) (accText st)
                            (usage st) (lastResponse st), thoughtSignature p)
             | None => (st, cached)
             end
    | None => (st, cached)
    end
  else (st, cached).

(** Step 3: the signature of the first function call, for Gemini 3. *)
Definition rev_sign_calls (isGemini3Preview hasFC : bool) (cached : option string)
    (st : StreamSt) (r : LlmResponse) : LlmResponse :=
  if isGemini3Preview && hasFC then
    match resp_parts r with
    | Some ps =>
        let hasExistingSignature := existsb (fun p => truthy (thoughtSignature p)) ps in
        let ps1 := if negb hasExistingSignature && truthy (thoughtSig st)
                   then sig_on_first_call (thoughtSig st) ps else ps in
        let ps2 :=
          if Nat.eqb (count_signed ps1) 0 then
            let signatureToUse := if truthy (thoughtSig st) then thoughtSig st else cached in
            if truthy signatureToUse then sig_on_first_unsigned_call signatureToUse ps1
            else ps1
          else ps1 in
        with_parts r ps2
    | None => r
    end
  else r.

Definition rev_chunk (isGemini3Preview : bool) (cached0 : option string)
    (st0 : StreamSt) (response : GenerateContentResponse)
    : StreamSt * option string * list LlmResponse :=
  let llmResponse := createLlmResponse response in
  let st1 := mkStreamSt (thoughtText st0) (thoughtSig st0) (accText st0)
               (usageMetadata llmResponse) (Some response) in
  let hasFC := hasFunctionCalls llmResponse in
  let '(st2, cached1) := rev_capture isGemini3Preview cached0 st1 llmResponse in
  let '(st3, cached2, resp3, flushed) :=
    match first_text_truthy llmResponse with
    | Some p =>
        let '(sta, signed) := accumulate st2 p in
        (* the cache is written for a signed thought part, Gemini 3 or not *)
        let cacheda := if signed then thoughtSig sta else cached1 in
        let stb := if isGemini3Preview && hasFC then reset sta else sta in
        (stb, cacheda, set_partial llmResponse, @nil LlmResponse)
    | None =>
        if may_flush st2 llmResponse then
          if isGemini3Preview && hasFC && (if content llmResponse then true else false) then
            let prependParts := flush_parts createPartFromText st2 in
            let ps0 := match resp_parts llmResponse with Some ps => ps | None => [] end in
            let ps1 := if negb (str_truthy (thoughtText st2)) && truthy (thoughtSig st2)
                       then sig_on_first_call_if_absent (thoughtSig st2) ps0 else ps0 in
            (reset st2, cached1, with_parts llmResponse (app prependParts ps1), [])
          else
            (reset st2, cached1, llmResponse,
             [flush_response (flush_parts createPartFromText st2) (usageMetadata llmResponse)])
        else (st2, cached1, llmResponse, [])
    end in
  let resp4 := rev_sign_calls isGemini3Preview hasFC cached2 st3 resp3 in
  (st3, cached2, app flushed [resp4]).

Fixpoint rev_loop (isGemini3Preview : bool) (cached : option string) (st : StreamSt)
    (rs : list GenerateContentResponse) : StreamSt * option string * list LlmResponse :=
  match rs with
  | [] => (st, cached, [])
  | r :: rest =>
      let '(st1, cached1, out1) := rev_chunk isGemini3Preview cached st r in
      let '(st2, cached2, out2) := rev_loop isGemini3Preview cached1 st1 rest in
      (st2, cached2, app out1 out2)
  end.

(** The non-streaming branch of the revised version. *)
Definition rev_single (isGemini3Preview : bool) (cached : option string)
    (llmResponse : LlmResponse) : LlmResponse * option string :=
  if isGemini3Preview then
    match resp_parts llmResponse with
    | Some ps =>
        let '(thoughtSigV, hasThoughtPartWithSignature, cached1) :=
          match first_signed ps with
          | Some p => (thoughtSignature p,
                       (match thought p with Some true => true | _ => false end),
                       thoughtSignature p)
          | None => (None, false, cached)
          end in
        let ps1 := if truthy thoughtSigV && negb hasThoughtPartWithSignature
                   then sig_on_first_call_if_absent thoughtSigV ps else ps in
        let ps2 :=
          if existsb has_fc ps1 then
            if Nat.eqb (count_signed ps1) 0 && truthy cached1
            then sig_on_first_unsigned_call cached1 ps1 else ps1
          else ps1 in
        (with_parts llmResponse ps2, cached1)
    | None => (llmResponse, cached)
    end
  else (llmResponse, cached).

(** [generateContentAsync(llmRequest, stream)], revised: the responses it
    yields and the new [cachedThoughtSignature]. *)
Definition generateContentAsync_rev (isGemini3Preview : bool) (cached : option string)
    (stream : bool) (rs : list GenerateContentResponse) (r : GenerateContentResponse)
    : list LlmResponse * option string :=
  if stream then
    let '(st, cached', out) := rev_loop isGemini3Preview cached init_st rs in
    (app out (final_flush st), cached')
  else
    let '(resp, cached') := rev_single isGemini3Preview cached (createLlmResponse r) in
    ([resp], cached').

End Generate.

(** The model name the [Gemini] constructor settles on:
    [if (!model) model = 'gemini-2.5-flash'], and its flag
    [this.isGemini3Preview = isGemini3PreviewModel(model)]. *)
Definition gemini_model (model : option string) : string :=
  match model with
  | Some m => if str_truthy m then m else "gemini-2.5-flash"
  | None => "gemini-2.5-flash"
  end.

End GeminiStream.

(* ------------------------------------------------------------------ *)
(** ** The [Gemini] constructor, its API clients and request handling
       (src/dev/test/server/agent_graph_test.ts, identical in both
       versions) *)
(* ------------------------------------------------------------------ *)

Module GeminiConfig.
Import GeminiStream.

Open Scope string_scope.

(** A [Record<string, string>] of headers or labels. *)
Abbreviation Headers := (gmap string string).

(** A value the code only copies, never inspects (a tool list). *)
Definition JsonValue := string.

(** [GeminiParams]; [None] is an omitted field. *)
Record GeminiParams := mkGeminiParams {
  model : option string;
  apiKey : option string;
  vertexai : option bool;
  project : option string;
  location : option string;
  headers : option Headers;
  apiEndpoint : option string }.

(** The fields a constructed [Gemini] holds: [this.model] (set by
    [super({model})]), [this.apiKey], [this.vertexai], [this.project],
    [this.location], [this.headers], [this.apiEndpoint] and
    [this.isGemini3Preview]. *)
Record Gemini := mkGemini {
  self_model : string;
  self_apiKey : option string;
  self_vertexai : bool;
  self_project : option string;
  self_location : option string;
  self_headers : option Headers;
  self_apiEndpoint : option string;
  self_isGemini3Preview : bool }.

(** The three [throw new Error(...)] of the constructor. *)
Inductive GeminiError := VertexProjectMissing | VertexLocationMissing | ApiKeyMissing.

(** [process.env[name]]: a string or [undefined]. *)
Definition Env := string -> option string.

(** JS [a || b] on values that are a string or [undefined]. *)
Definition js_or (a b : option string) : option string := if truthy a then a else b.

(** [String.prototype.toLowerCase] on the ASCII letters; other bytes are
    kept. Only its comparison with ['true'] is used, which this decides as
    JS does (no non-ASCII character lowers to an ASCII letter of
    ['true']). *)
Definition lower_ascii (c : ascii) : ascii :=
  let n := nat_of_ascii c in
  if (65 <=? n)%nat && (n <=? 90)%nat then ascii_of_nat (n + 32) else c.
Fixpoint toLowerCase (s : string) : string :=
  match s with
  | EmptyString => EmptyString
  | String c rest => String (lower_ascii c) (toLowerCase rest)
  end.

Definition GEMINI3_PREVIEW_API_ENDPOINT : string :=
  "https://aiplatform.googleapis.com/v1/publishers/google".

(** [new Gemini(params)]: [isGemini3PreviewModel] (model_name.js) is a
    parameter, [canReadEnv] is [typeof process === 'object'] and [env] is
    [process.env]. Logging is omitted. *)
Definition construct (isGemini3PreviewModel : string -> bool) (canReadEnv : bool)
    (env : Env) (p : GeminiParams) : GeminiError + Gemini :=
  let m := gemini_model (model p) in
  let isGemini3Preview := isGemini3PreviewModel m in
  (* this.apiEndpoint *)
  let ep0 := apiEndpoint p in
  let ep1 := if negb (truthy ep0) && canReadEnv then env "GEMINI_API_ENDPOINT" else ep0 in
  let ep2 := if negb (truthy ep1) && isGemini3Preview
             then Some GEMINI3_PREVIEW_API_ENDPOINT else ep1 in
  (* let useVertexAI = !!vertexai; ... *)
  let use0 := match vertexai p with Some b => b | None => false end in
  let use1 :=
    if negb use0 && canReadEnv then
      let vertexAIfromEnv := env "GOOGLE_GENAI_USE_VERTEXAI" in
      if truthy vertexAIfromEnv then
        String.eqb (toLowerCase (or_empty vertexAIfromEnv)) "true" ||
        String.eqb (or_empty vertexAIfromEnv) "1"
      else use0
    else use0 in
  (* the switch to API key mode for Gemini 3 preview models *)
  let '(useVertexAI, key1) :=
    if isGemini3Preview && use1 then
      let availableApiKey :=
        js_or (apiKey p)
          (if canReadEnv then js_or (env "GOOGLE_GENAI_API_KEY") (env "GEMINI_API_KEY")
           else None) in
      if truthy availableApiKey then (false, availableApiKey) else (use1, apiKey p)
    else (use1, apiKey p) in
  if useVertexAI then
    let proj := if canReadEnv && negb (truthy (project p))
                then env "GOOGLE_CLOUD_PROJECT" else project p in
    let loc := if canReadEnv && negb (truthy (location p))
               then env "GOOGLE_CLOUD_LOCATION" else location p in
    if negb (truthy proj) then inl VertexProjectMissing
    else if negb (truthy loc) then inl VertexLocationMissing
    else inr (mkGemini m key1 true proj loc (headers p) ep2 isGemini3Preview)
  else
    let key2 := if negb (truthy key1) && canReadEnv
                then js_or (env "GOOGLE_GENAI_API_KEY") (env "GEMINI_API_KEY") else key1 in
    if negb (truthy key2) then inl ApiKeyMissing
    else inr (mkGemini m key2 false (project p) (location p) (headers p) ep2 isGemini3Preview).

(** The options object passed to [new GoogleGenAI(...)]; [None] is an
    absent property. *)
Record HttpOpts := mkHttpOpts {
  http_headers : option Headers;
  http_apiVersion : option string;
  http_baseUrl : option string }.

Record ClientOptions := mkClientOptions {
  co_vertexai : option bool;
  co_project : option string;
  co_location : option string;
  co_apiKey : option string;
  co_httpOptions : HttpOpts }.

(** [{...a, ...b}] on headers: [b]'s entries win. *)
Definition spread (a b : Headers) : Headers := b ∪ a.

(** The getter [apiClient]: the options of the client it creates on first
    use (all the fields it reads are [readonly], and [trackingHeaders], the
    getter of [BaseLlm], is a parameter). *)
Definition apiClient (trackingHeaders : Headers) (g : Gemini) : ClientOptions :=
  let combinedHeaders :=
    spread trackingHeaders (match self_headers g with Some h => h | None => ∅ end) in
  if self_vertexai g then
    mkClientOptions (Some true) (self_project g) (self_location g) None
      (mkHttpOpts (Some combinedHeaders) None None)
  else
    let httpOptions :=
      if truthy (self_apiEndpoint g) then
        mkHttpOpts (Some combinedHeaders)
          (if self_isGemini3Preview g then Some "" else None) (self_apiEndpoint g)
      else mkHttpOpts (Some combinedHeaders) None None in
    mkClientOptions (Some false) None None (self_apiKey g) httpOptions.

Inductive GoogleLLMVariant := VERTEX_AI | GEMINI_API.

(** The getter [apiBackend]: the client's [vertexai] flag, which the
    options above always set explicitly. *)
Definition apiBackend (trackingHeaders : Headers) (g : Gemini) : GoogleLLMVariant :=
  match co_vertexai (apiClient trackingHeaders g) with
  | Some true => VERTEX_AI
  | _ => GEMINI_API
  end.

(** The getter [liveApiVersion]. *)
Definition liveApiVersion (trackingHeaders : Headers) (g : Gemini) : string :=
  match apiBackend trackingHeaders g with VERTEX_AI => "v1beta1" | GEMINI_API => "v1alpha" end.

(** The getter [liveApiClient]: the options of the live client. *)
Definition liveApiClient (trackingHeaders : Headers) (g : Gemini) : ClientOptions :=
  let httpOptions :=
    if truthy (self_apiEndpoint g) then
      mkHttpOpts (Some trackingHeaders)
        (Some (if self_isGemini3Preview g then "" else liveApiVersion trackingHeaders g))
        (self_apiEndpoint g)
    else mkHttpOpts (Some trackingHeaders) (Some (liveApiVersion trackingHeaders g)) None in
  mkClientOptions None None None (self_apiKey g) httpOptions.

(** The parts of an [LlmRequest] that [connect] and [preprocessRequest]
    read or write. [inlineData] ([Blob]) and [fileData] ([FileData]) both
    have the [displayName] the code clears; their other fields are kept as
    one copied value. *)
Record DataObj := mkDataObj { displayName : option string; data_rest : option JsonValue }.

Record ReqPart := mkReqPart {
  part_text : option string;
  inlineData : option DataObj;
  fileData : option DataObj }.

Record ReqContent := mkReqContent {
  content_role : option string;
  content_parts : option (list ReqPart) }.

Record GenerateContentConfig := mkConfig {
  labels : option Headers;
  systemInstruction : option string;
  cfg_tools : option JsonValue;
  cfg_httpOptions : option HttpOpts }.

Record LiveConnectConfig := mkLive {
  live_httpOptions : option HttpOpts;
  live_systemInstruction : option ReqContent;
  live_tools : option JsonValue }.

Record LlmRequest := mkLlmRequest {
  req_model : option string;
  req_contents : option (list ReqContent);
  req_config : option GenerateContentConfig;
  req_liveConnectConfig : option LiveConnectConfig }.

(** [connect(llmRequest)]: the updated request and the [model] and
    [config] given to [liveApiClient.live.connect]; [None] is the
    [TypeError] of an assignment to a property of an undefined
    [liveConnectConfig]. *)
Definition connect (trackingHeaders : Headers) (g : Gemini) (llmRequest : LlmRequest)
    : option (LlmRequest * (string * LiveConnectConfig)) :=
  match req_liveConnectConfig llmRequest with
  | None => None
  | Some lc =>
      let lc1 :=
        match live_httpOptions lc with
        | Some ho =>
            let h0 := match http_headers ho with Some h => h | None => ∅ end in
            (* Object.assign(headers, this.trackingHeaders) *)
            let h1 := spread h0 trackingHeaders in
            let v := if self_isGemini3Preview g then "" else liveApiVersion trackingHeaders g in
            mkLive (Some (mkHttpOpts (Some h1) (Some v) (http_baseUrl ho)))
              (live_systemInstruction lc) (live_tools lc)
        | None => lc
        end in
      let sys := match req_config llmRequest with Some c => systemInstruction c | None => None end in
      let lc2 :=
        if truthy sys then
          mkLive (live_httpOptions lc1)
            (Some (mkReqContent (Some "system") (Some [mkReqPart sys None None])))
            (live_tools lc1)
        else lc1 in
      let lc3 := mkLive (live_httpOptions lc2) (live_systemInstruction lc2)
                   (match req_config llmRequest with Some c => cfg_tools c | None => None end) in
      let m := match req_model llmRequest with Some m => m | None => self_model g end in
      Some (mkLlmRequest (req_model llmRequest) (req_contents llmRequest)
              (req_config llmRequest) (Some lc3), (m, lc3))
  end.

(** [removeDisplayNameIfPresent(dataObj)]. *)
Definition removeDisplayNameIfPresent (dataObj : option DataObj) : option DataObj :=
  match dataObj with
  | Some d => if truthy (displayName d) then Some (mkDataObj None (data_rest d)) else dataObj
  | None => None
  end.

Definition preprocessPart (part : ReqPart) : ReqPart :=
  mkReqPart (part_text part) (removeDisplayNameIfPresent (inlineData part))
    (removeDisplayNameIfPresent (fileData part)).

(** [if (!content.parts) continue; for (const part of content.parts) ...] *)
Definition preprocessContent (content : ReqContent) : ReqContent :=
  match content_parts content with
  | Some ps => mkReqContent (content_role content) (Some (map preprocessPart ps))
  | None => content
  end.

(** [preprocessRequest(llmRequest)], given [this.apiBackend]. *)
Definition preprocessRequest (backend : GoogleLLMVariant) (llmRequest : LlmRequest) : LlmRequest :=
  match backend with
  | GEMINI_API =>
      let config :=
        match req_config llmRequest with
        | Some c => Some (mkConfig None (systemInstruction c) (cfg_tools c) (cfg_httpOptions c))
        | None => None
        end in
      let contents :=
        match req_contents llmRequest with
        | Some cs => Some (map preprocessContent cs)
        | None => None
        end in
      mkLlmRequest (req_model llmRequest) contents config (req_liveConnectConfig llmRequest)
  | VERTEX_AI => llmRequest
  end.

(** A request with every [displayName] and the [labels] dropped: what
    [preprocessRequest] may change. *)
Definition eraseData (d : option DataObj) : option DataObj :=
  match d with Some o => Some (mkDataObj None (data_rest o)) | None => None end.
Definition erasePart (part : ReqPart) : ReqPart :=
  mkReqPart (part_text part) (eraseData (inlineData part)) (eraseData (fileData part)).
Definition eraseContent (c : ReqContent) : ReqContent :=
  mkReqContent (content_role c) (option_map (map erasePart) (content_parts c)).
Definition eraseRequest (r : LlmRequest) : LlmRequest :=
  mkLlmRequest (req_model r) (option_map (map eraseContent) (req_contents r))
    (option_map (fun c => mkConfig None (systemInstruction c) (cfg_tools c) (cfg_httpOptions c))
       (req_config r))
    (req_liveConnectConfig r).

End GeminiConfig.

(** Sample constructor inputs: a model predicate that recognises one
    preview model, and [process.env] contents. *)
Module GeminiConfigSamples.
Import GeminiStream GeminiConfig.
Open Scope string_scope.

Definition sample_isPreview (m : string) : bool := String.eqb m "gemini-3-pro-preview".

Definition env_api_key : Env :=
  fun k => if String.eqb k "GEMINI_API_KEY" then Some "key-1" else None.

Definition env_vertex : Env :=
  fun k => if String.eqb k "GOOGLE_GENAI_USE_VERTEXAI" then Some "TRUE"
           else if String.eqb k "GOOGLE_CLOUD_PROJECT" then Some "proj-1"
           else if String.eqb k "GOOGLE_CLOUD_LOCATION" then Some "us-central1"
           else None.

Definition params_empty : GeminiParams := mkGeminiParams None None None None None None None.

Definition params_preview_vertex : GeminiParams :=
  mkGeminiParams (Some "gemini-3-pro-preview") None (Some true) None None None None.

Definition params_vertex : GeminiParams :=
  mkGeminiParams None None (Some true) (Some "proj-0") None None None.

End GeminiConfigSamples.

(* ------------------------------------------------------------------ *)
(** ** The event-sourced session and the agent runtime *)
(* ------------------------------------------------------------------ *)

Module Runtime.

Open Scope string_scope.

(** *** Event & State model *)

(** Session state: a flat key-value view; a state delta: the keys an
    event writes with their new values. *)
Definition State := gmap string string.
Definition StateDelta := gmap string string.

Record FunctionCall := mkCall { call_id : string; call_name : string; call_args : string }.

(** A model turn: textual content and zero or more function calls. *)
Record ModelTurn := mkTurn { turn_text : string; turn_calls : list FunctionCall }.

(** The result carried by a tool-result event: a value or an error
    payload. *)
Inductive ToolPayload := ToolValue (v : string) | ToolErrorPayload (err : string).

Inductive Content :=
  | NoContent
  | UserInput (text : string)
  | ModelTurnContent (t : ModelTurn)
  | ToolResultContent (callId : string) (result : ToolPayload)
  | ErrorContent (msg : string).

Record Event := mkEvent {
  invocationId : string;
  author : string;
  branch : string;
  content : Content;
  stateDelta : StateDelta;
  escalate : bool }.

(** Modelled from the spec (Event & State model, section 4.1; the session
    service is not among the sources): [applyDelta] merges the delta into
    the state, the delta's keys winning. *)
Definition applyDelta (state : State) (delta : StateDelta) : State := delta ∪ state.

(** Modelled from the spec: [fold(events)], the left fold of [applyDelta]
    over the events' deltas in sequence order, from [state]. *)
Definition fold (events : list Event) (state : State) : State :=
  fold_left (fun acc e => applyDelta acc (stateDelta e)) events state.

(** The last value an event sequence writes to key [k], if any. *)
Fixpoint last_write (k : string) (es : list Event) : option string :=
  match es with
  | [] => None
  | e :: es' =>
      match last_write k es' with
      | Some v => Some v
      | None => stateDelta e !! k
      end
  end.

Record Session := mkSession {
  appName : string;
  userId : string;
  sessionId : string;
  events : list Event;
  state : State }.

(** Modelled from the spec: the session service's
    [createSession({appName, userId, state?, sessionId})]; the optional
    initial [state] is the one the CLI passes (src/dev/src/cli/cli_run.ts). *)
Definition createSession (app user sid : string) (init : option State) : Session :=
  mkSession app user sid [] (match init with Some st => st | None => ∅ end).

(** Modelled from the spec: [append(session, event)] stores the event and
    applies its delta, in one step. *)
Definition appendEvent (s : Session) (e : Event) : Session :=
  mkSession (appName s) (userId s) (sessionId s) (events s ++ [e])%list
    (applyDelta (state s) (stateDelta e)).

(** Appending the events one after the other, as a session does while
    they are produced. *)
Definition appendAll (s : Session) (es : list Event) : Session :=
  fold_left appendEvent es s.

(** *** Invocation context and branching *)

Record Ctx := mkCtx { ctx_invocationId : string; ctx_branch : string }.

(** Modelled from the spec (section 4.2): [derive(parent, branchSegment)]. *)
Definition derive (parent : Ctx) (branchSegment : string) : Ctx :=
  mkCtx (ctx_invocationId parent)
    (if String.eqb (ctx_branch parent) "" then branchSegment
     else ctx_branch parent ++ "/" ++ branchSegment).

(** Modelled from the spec: [newInvocation(session, rootAgentName)], the
    fresh invocation id being supplied by the caller. *)
Definition newInvocation (invocationId rootAgentName : string) : Ctx :=
  mkCtx invocationId rootAgentName.

(** *** Collaborators and agents *)

(** Modelled from the spec (section 6): a model call yields a final turn
    or fails with a collaborator error. *)
Inductive ModelResult := MTurn (t : ModelTurn) | MFail (msg : string).

(** Modelled from the spec: a tool call returns a value together with the
    state delta and escalate signal of its actions, or fails. *)
Inductive ToolResult :=
  | ToolReturned (v : string) (delta : StateDelta) (esc : bool)
  | ToolFailed (err : string).

Definition Tool := string -> State -> ToolResult.

Record LeafCfg := mkLeafCfg {
  instruction : string;
  model : string -> list Event -> ModelResult;
  tools : list (string * Tool) }.

(** Modelled from the spec (section 4.3): the agent variants as a tagged
    union. *)
#[warnings="-register-all"]
Inductive Agent :=
  | Leaf (name : string) (cfg : LeafCfg)
  | Sequential (name : string) (subAgents : list Agent)
  | Parallel (name : string) (subAgents : list Agent)
  | Loop (name : string) (maxIterations : option nat) (subAgents : list Agent).

Definition agentName (a : Agent) : string :=
  match a with
  | Leaf n _ | Sequential n _ | Parallel n _ | Loop n _ _ => n
  end.

(** *** Running agents *)

(** Modelled from the spec (section 4.5): the two states of the
    Tool-Invocation Loop, plus its terminated state and, from section 7,
    the state after a failed model call ended the branch. *)
Inductive LeafState :=
  | AwaitingModel
  | ExecutingTools (calls : list FunctionCall)
  | LeafDone
  | LeafFailed.

(** A running agent: a Leaf in its loop state; a Sequential or Parallel
    group of running children; a Loop with its iteration count, its
    running iteration and the last event of that iteration. *)
#[warnings="-register-all"]
Inductive Run :=
  | RLeaf (ctx : Ctx) (name : string) (cfg : LeafCfg) (ls : LeafState)
  | RSeq (rs : list Run)
  | RPar (rs : list Run)
  | RLoop (ctx : Ctx) (subs : list Agent) (maxIterations : option nat)
      (timesLooped : nat) (body : Run) (lastEvent : option Event).

(** Modelled from the spec: [execute(context)] starting an agent.
    Sequential and Loop children share the parent's branch; Parallel
    children run in [derive ctx subAgentName]; an empty sub-agent list (and
    a Loop whose cap is zero) is finished at once. *)
Fixpoint start (ctx : Ctx) (a : Agent) {struct a} : Run :=
  match a with
  | Leaf n cfg => RLeaf ctx n cfg AwaitingModel
  | Sequential _ subs => RSeq (map (start ctx) subs)
  | Parallel _ subs => RPar (map (fun b => start (derive ctx (agentName b)) b) subs)
  | Loop _ mx subs =>
      match subs, mx with
      | [], _ => RSeq []
      | _, Some 0 => RSeq []
      | _, _ => RLoop ctx subs mx 0 (RSeq (map (start ctx) subs)) None
      end
  end.

(** One iteration of a Loop: its sub-agents in sequence, freshly started. *)
Definition iteration (ctx : Ctx) (subs : list Agent) : Run :=
  RSeq (map (start ctx) subs).

(** Modelled from the spec: an event is visible to a context when its
    branch is a prefix of the context's branch (user input has the empty
    branch). *)
Definition visible (ctx : Ctx) (e : Event) : bool :=
  String.prefix (branch e) (ctx_branch ctx).

(** The conversation sent to the model: the session history filtered to
    the branch's visible events. *)
Definition conversation (ctx : Ctx) (s : Session) : list Event :=
  filter (fun e => visible ctx e = true) (events s).

Definition mkEv (ctx : Ctx) (name : string) (c : Content) (d : StateDelta) (esc : bool) : Event :=
  mkEvent (ctx_invocationId ctx) name (ctx_branch ctx) c d esc.

Fixpoint resolveTool (ts : list (string * Tool)) (n : string) : option Tool :=
  match ts with
  | [] => None
  | (m, t) :: ts' => if String.eqb m n then Some t else resolveTool ts' n
  end.

(** Modelled from the spec: invoking a tool; a failure, or an unknown
    tool, becomes an error payload. *)
Definition invokeTool (cfg : LeafCfg) (c : FunctionCall) (st : State) : ToolPayload * StateDelta * bool :=
  match resolveTool (tools cfg) (call_name c) with
  | Some tool =>
      match tool (call_args c) st with
      | ToolReturned v d esc => (ToolValue v, d, esc)
      | ToolFailed err => (ToolErrorPayload err, ∅, false)
      end
  | None => (ToolErrorPayload ("tool not found: " ++ call_name c), ∅, false)
  end.

(** Modelled from the spec (sections 4.5 and 7): one step of the
    Tool-Invocation Loop against the current session. A turn without calls
    ends the loop; a failed model call ends it with a terminal error event
    and leaves it failed; after the last tool result of a turn the loop is
    back in [AwaitingModel]. *)
Definition leaf_step (ctx : Ctx) (name : string) (cfg : LeafCfg) (ls : LeafState) (s : Session)
  : option (Event * LeafState) :=
  match ls with
  | AwaitingModel =>
      match model cfg (instruction cfg) (conversation ctx s) with
      | MTurn t =>
          Some (mkEv ctx name (ModelTurnContent t) ∅ false,
                match turn_calls t with [] => LeafDone | cs => ExecutingTools cs end)
      | MFail msg => Some (mkEv ctx name (ErrorContent msg) ∅ false, LeafFailed)
      end
  | ExecutingTools (c :: cs) =>
      let '(payload, d, esc) := invokeTool cfg c (state s) in
      Some (mkEv ctx name (ToolResultContent (call_id c) payload) d esc,
            match cs with [] => AwaitingModel | _ => ExecutingTools cs end)
  | ExecutingTools [] => None
  | LeafDone => None
  | LeafFailed => None
  end.

Inductive Label := Emit (e : Event) | Tau.

#[warnings="-register-all"]
Inductive fin : Run -> Prop :=
  | fin_leaf ctx n cfg : fin (RLeaf ctx n cfg LeafDone)
  | fin_seq : fin (RSeq [])
  | fin_par rs : Forall fin rs -> fin (RPar rs)
  | fin_failed ctx n cfg : fin (RLeaf ctx n cfg LeafFailed).

(** A run whose branch a failed model call has ended (spec section 7):
    the Leaf that produced the terminal error event, which a Sequential or
    Loop sharing its branch becomes in turn. *)
Definition aborted (r : Run) : bool :=
  match r with RLeaf _ _ _ LeafFailed => true | _ => false end.

Definition lastEscalates (last : option Event) : bool :=
  match last with Some e => escalate e | None => false end.

(** Modelled from the spec: after an iteration, the Loop stops when the
    iteration's last event escalates or the cap is reached. *)
Definition loop_next (ctx : Ctx) (subs : list Agent) (mx : option nat) (k : nat) (last : option Event) : Run :=
  if lastEscalates last then RSeq []
  else match mx with
       | Some m => if (k <? m)%nat then RLoop ctx subs mx k (iteration ctx subs) None else RSeq []
       | None => RLoop ctx subs mx k (iteration ctx subs) None
       end.

(** Modelled from the spec (sections 4.3 and 7): the composition
    semantics as a step relation against the session the run reads.
    Sequential forwards its head's events and stops at an escalating one;
    Parallel lets any branch progress; Loop restarts its body until
    [loop_next] stops it. A model-call failure ends the event sequence of
    its branch: Sequential and Loop, whose children share their branch,
    end with it, while a Parallel branch that fails is finished and its
    siblings go on. *)
Inductive step : Run -> Session -> Label -> Run -> Prop :=
  | step_leaf ctx n cfg ls s e ls' :
      leaf_step ctx n cfg ls s = Some (e, ls') ->
      step (RLeaf ctx n cfg ls) s (Emit e) (RLeaf ctx n cfg ls')
  | step_seq_emit r rs s e r' :
      step r s (Emit e) r' ->
      step (RSeq (r :: rs)) s (Emit e)
        (if escalate e then RSeq [] else if aborted r' then r' else RSeq (r' :: rs))
  | step_seq_tau r rs s r' :
      step r s Tau r' -> step (RSeq (r :: rs)) s Tau (RSeq (r' :: rs))
  | step_seq_next r rs s :
      fin r -> step (RSeq (r :: rs)) s Tau (RSeq rs)
  | step_par rs i r s l r' :
      rs !! i = Some r -> step r s l r' -> step (RPar rs) s l (RPar (<[i := r']> rs))
  | step_loop_emit ctx subs mx k body last s e body' :
      step body s (Emit e) body' ->
      step (RLoop ctx subs mx k body last) s (Emit e)
        (if aborted body' then body' else RLoop ctx subs mx k body' (Some e))
  | step_loop_tau ctx subs mx k body last s body' :
      step body s Tau body' ->
      step (RLoop ctx subs mx k body last) s Tau (RLoop ctx subs mx k body' last)
  | step_loop_next ctx subs mx k body last s :
      fin body ->
      step (RLoop ctx subs mx k body last) s Tau (loop_next ctx subs mx (S k) last).

(** Driving a run: every emitted event is appended to the session before
    it is forwarded; the forwarded item pairs the event with the session
    a consumer observes at that point. *)
Inductive steps : Run -> Session -> list (Event * Session) -> Run -> Session -> Prop :=
  | steps_refl r s : steps r s [] r s
  | steps_tau r s r' tr r'' s'' :
      step r s Tau r' -> steps r' s tr r'' s'' -> steps r s tr r'' s''
  | steps_emit r s e r' tr r'' s'' :
      step r s (Emit e) r' -> steps r' (appendEvent s e) tr r'' s'' ->
      steps r s ((e, appendEvent s e) :: tr) r'' s''.

Definition drive (r : Run) (s : Session) (tr : list (Event * Session)) (s' : Session) : Prop :=
  exists r', steps r s tr r' s' /\ fin r'.

(** No forwarded event escalates. *)
Definition noEsc (tr : list (Event * Session)) : Prop :=
  Forall (fun p => escalate (fst p) = false) tr.

(** The forwarded sequence ends with its first escalating event. *)
Definition escLast (tr : list (Event * Session)) : Prop :=
  exists tr1 p, tr = (tr1 ++ [p])%list /\ escalate (fst p) = true /\ noEsc tr1.

(** The last event of a forwarded sequence, [d] if it is empty. *)
Fixpoint lastOf (tr : list (Event * Session)) (d : option Event) : option Event :=
  match tr with
  | [] => d
  | (e, _) :: tr' => lastOf tr' (Some e)
  end.

(** The successive iterations of a Loop's body, each run from the
    session the previous one left: complete ones, possibly followed by one
    that a failed model call ended (the flag is then [true]). *)
Inductive iterations (ctx : Ctx) (subs : list Agent) :
    Session -> list (list (Event * Session)) -> bool -> Session -> Prop :=
  | iter_nil s : iterations ctx subs s [] false s
  | iter_cons s it rb s1 its f s2 :
      steps (iteration ctx subs) s it rb s1 -> fin rb -> aborted rb = false ->
      iterations ctx subs s1 its f s2 -> iterations ctx subs s (it :: its) f s2
  | iter_fail s it rb s1 :
      steps (iteration ctx subs) s it rb s1 -> aborted rb = true ->
      iterations ctx subs s [it] true s1.

(** The forwarded sequence ends with the terminal error event of a failed
    model call. *)
Definition errLast (tr : list (Event * Session)) : Prop :=
  exists tr1 p msg, tr = (tr1 ++ [p])%list /\ content (fst p) = ErrorContent msg.

(** The shape of a Leaf's event sequence: model turns with calls, each
    followed by one result per call, ending with a turn without calls or
    with the error event of a failed model call. *)
Inductive leaf_shape : list Event -> Prop :=
  | shape_final e t :
      content e = ModelTurnContent t -> turn_calls t = [] -> leaf_shape [e]
  | shape_fail e msg :
      content e = ErrorContent msg -> leaf_shape [e]
  | shape_tools e t rs rest :
      content e = ModelTurnContent t -> turn_calls t <> [] ->
      Forall2 (fun c r => exists p, content r = ToolResultContent (call_id c) p) (turn_calls t) rs ->
      leaf_shape rest -> leaf_shape (e :: rs ++ rest)%list.

(** The number of calls of each model turn of a sequence. *)
Fixpoint turnCalls (es : list Event) : list nat :=
  match es with
  | [] => []
  | e :: es' =>
      match content e with
      | ModelTurnContent t => length (turn_calls t) :: turnCalls es'
      | _ => turnCalls es'
      end
  end.

Definition isToolResult (e : Event) : bool :=
  match content e with ToolResultContent _ _ => true | _ => false end.

Definition countToolResults (es : list Event) : nat :=
  length (filter (fun e => isToolResult e = true) es).

(** [evs] interleaves the sequences [trs]: each of them appears in it, in
    its own order, and nothing else does. *)
Inductive interleaving : list (list Event) -> list Event -> Prop :=
  | il_nil n : interleaving (replicate n []) []
  | il_cons trs i e rest :
      (i < length trs)%nat -> interleaving trs rest ->
      interleaving (alter (cons e) i trs) (e :: rest).

(** Every context inside a running agent lies under branch [b]. *)
#[warnings="-register-all"]
Inductive under (b : string) : Run -> Prop :=
  | under_leaf c n cfg ls :
      String.prefix b (ctx_branch c) = true -> under b (RLeaf c n cfg ls)
  | under_seq rs : Forall (under b) rs -> under b (RSeq rs)
  | under_par rs : Forall (under b) rs -> under b (RPar rs)
  | under_loop c subs mx k body last :
      String.prefix b (ctx_branch c) = true -> under b body ->
      under b (RLoop c subs mx k body last).

(** The events a run can emit, each step reading some session. *)
Inductive emits : Run -> list Event -> Run -> Prop :=
  | em_refl r : emits r [] r
  | em_tau r s r' evs r'' : step r s Tau r' -> emits r' evs r'' -> emits r evs r''
  | em_emit r s e r' evs r'' :
      step r s (Emit e) r' -> emits r' evs r'' -> emits r (e :: evs) r''.

(** *** Runner *)

Definition SessionStore := gmap (string * string * string) Session.

Definition userEvent (invocationId text : string) : Event :=
  mkEvent invocationId "user" "" (UserInput text) ∅ false.

Definition withInput (invocationId : string) (newInput : option string) (s : Session) : Session :=
  match newInput with
  | Some text => appendEvent s (userEvent invocationId text)
  | None => s
  end.

Inductive RunOutcome :=
  | RunNotFound
  | RunOk (forwarded : list (Event * Session)) (final : Session).

(** Modelled from the spec (section 4.4): [run(appName, userId, sessionId,
    rootAgent, newInput)]: resolve the session, append the user input, then
    drive the root agent in the root context, appending then forwarding. *)
Inductive run (svc : SessionStore) (app user sid invocationId : string)
    (rootAgent : Agent) (newInput : option string) : RunOutcome -> Prop :=
  | run_not_found :
      svc !! (app, user, sid) = None ->
      run svc app user sid invocationId rootAgent newInput RunNotFound
  | run_ok s0 tr s' :
      svc !! (app, user, sid) = Some s0 ->
      drive (start (newInvocation invocationId (agentName rootAgent)) rootAgent)
        (withInput invocationId newInput s0) tr s' ->
      run svc app user sid invocationId rootAgent newInput (RunOk tr s').

(** *** A deterministic scheduler *)

Fixpoint is_fin (r : Run) : bool :=
  match r with
  | RLeaf _ _ _ LeafDone => true
  | RLeaf _ _ _ LeafFailed => true
  | RLeaf _ _ _ _ => false
  | RSeq [] => true
  | RSeq _ => false
  | RPar rs => forallb is_fin rs
  | RLoop _ _ _ _ _ _ => false
  end.

(** Picks the first step available: in a Parallel group, the first branch
    that can progress. *)
Fixpoint step_first (r : Run) (s : Session) {struct r} : option (Label * Run) :=
  match r with
  | RLeaf ctx n cfg ls =>
      match leaf_step ctx n cfg ls s with
      | Some (e, ls') => Some (Emit e, RLeaf ctx n cfg ls')
      | None => None
      end
  | RSeq [] => None
  | RSeq (r1 :: rs) =>
      if is_fin r1 then Some (Tau, RSeq rs)
      else match step_first r1 s with
           | Some (Emit e, r1') =>
               Some (Emit e, if escalate e then RSeq []
                             else if aborted r1' then r1' else RSeq (r1' :: rs))
           | Some (Tau, r1') => Some (Tau, RSeq (r1' :: rs))
           | None => None
           end
  | RPar rs =>
      let fix go (i : nat) (l : list Run) : option (Label * Run) :=
        match l with
        | [] => None
        | x :: l' =>
            match step_first x s with
            | Some (lab, x') => Some (lab, RPar (<[i := x']> rs))
            | None => go (S i) l'
            end
        end in
      go 0 rs
  | RLoop ctx subs mx k body last =>
      if is_fin body then Some (Tau, loop_next ctx subs mx (S k) last)
      else match step_first body s with
           | Some (Emit e, body') =>
               Some (Emit e, if aborted body' then body' else RLoop ctx subs mx k body' (Some e))
           | Some (Tau, body') => Some (Tau, RLoop ctx subs mx k body' last)
           | None => None
           end
  end.

Fixpoint run_first (fuel : nat) (r : Run) (s : Session) : option (list (Event * Session) * Session) :=
  match fuel with
  | O => None
  | S f =>
      if is_fin r then Some ([], s)
      else match step_first r s with
           | Some (Tau, r') => run_first f r' s
           | Some (Emit e, r') =>
               match run_first f r' (appendEvent s e) with
               | Some (tr, s') => Some ((e, appendEvent s e) :: tr, s')
               | None => None
               end
           | None => None
           end
  end.

(** The shapes a Leaf's event list takes from each of its states. *)
Definition shape_from (ls : LeafState) (evs : list Event) : Prop :=
  match ls with
  | AwaitingModel => leaf_shape evs
  | ExecutingTools cs =>
      exists rs rest, evs = (rs ++ rest)%list /\
        Forall2 (fun c r => exists p, content r = ToolResultContent (call_id c) p) cs rs /\
        leaf_shape rest
  | LeafDone | LeafFailed => evs = []
  end.

(** *** Induction principles for the nested types *)

Definition Run_ind' (P : Run -> Prop)
    (Hleaf : forall c n cfg ls, P (RLeaf c n cfg ls))
    (Hseq : forall rs, Forall P rs -> P (RSeq rs))
    (Hpar : forall rs, Forall P rs -> P (RPar rs))
    (Hloop : forall c subs mx k body last, P body -> P (RLoop c subs mx k body last)) :
    forall r, P r :=
  fix F r :=
    let fix G (l : list Run) : Forall P l :=
      match l with
      | [] => List.Forall_nil P
      | x :: l' => List.Forall_cons P x l' (F x) (G l')
      end in
    match r with
    | RLeaf c n cfg ls => Hleaf c n cfg ls
    | RSeq rs => Hseq rs (G rs)
    | RPar rs => Hpar rs (G rs)
    | RLoop c subs mx k body last => Hloop c subs mx k body last (F body)
    end.

Definition Agent_ind' (P : Agent -> Prop)
    (Hleaf : forall n cfg, P (Leaf n cfg))
    (Hseq : forall n subs, Forall P subs -> P (Sequential n subs))
    (Hpar : forall n subs, Forall P subs -> P (Parallel n subs))
    (Hloop : forall n mx subs, Forall P subs -> P (Loop n mx subs)) :
    forall a, P a :=
  fix F a :=
    let fix G (l : list Agent) : Forall P l :=
      match l with
      | [] => List.Forall_nil P
      | x :: l' => List.Forall_cons P x l' (F x) (G l')
      end in
    match a with
    | Leaf n cfg => Hleaf n cfg
    | Sequential n subs => Hseq n subs (G subs)
    | Parallel n subs => Hpar n subs (G subs)
    | Loop n mx subs => Hloop n mx subs (G subs)
    end.

End Runtime.

(** *** Sample agents *)

Module RuntimeSamples.
Import Runtime.
Open Scope string_scope.

Definition is_model_turn (e : Event) : bool :=
  match content e with ModelTurnContent _ => true | _ => false end.

Definition is_tool_result (e : Event) : bool :=
  match content e with ToolResultContent _ _ => true | _ => false end.

Definition turns_so_far (conv : list Event) : nat := length (filter (fun e => is_model_turn e = true) conv).

Definition is_result_of (callId : string) (e : Event) : bool :=
  match content e with ToolResultContent i _ => String.eqb i callId | _ => false end.

(** A model that asks for [toolName] until the conversation holds [n]
    results of that call, then answers in plain text. *)
Definition callingModel (toolName : string) (n : nat) : string -> list Event -> ModelResult :=
  fun _ conv =>
    if (length (filter (fun e => is_result_of ("call-" ++ toolName) e = true) conv) <? n)%nat
    then MTurn (mkTurn "" [mkCall ("call-" ++ toolName) toolName "{}"])
    else MTurn (mkTurn "done" []).

Definition textModel : string -> list Event -> ModelResult := fun _ _ => MTurn (mkTurn "ok" []).

Definition failingModel : string -> list Event -> ModelResult := fun _ _ => MFail "model unavailable".

Definition constTool (v : string) : Tool := fun _ _ => ToolReturned v ∅ false.

Definition writeTool (k v : string) : Tool := fun _ _ => ToolReturned v {[ k := v ]} false.

Definition readTool (k : string) : Tool :=
  fun _ st => match st !! k with Some v => ToolReturned v ∅ false | None => ToolFailed "unset" end.

Definition exitLoopTool : Tool := fun _ _ => ToolReturned "" ∅ true.

Definition brokenTool : Tool := fun _ _ => ToolFailed "boom".

Definition leafCfg (m : string -> list Event -> ModelResult) (ts : list (string * Tool)) : LeafCfg :=
  mkLeafCfg "" m ts.

Definition ctx0 : Ctx := newInvocation "inv-1" "root".

Definition session0 : Session := createSession "app" "user" "s1" None.

(** Three model turns, the first two with one call each. *)
Definition toolLoopLeaf : Agent :=
  Leaf "helper" (leafCfg (callingModel "lookup" 2) [("lookup", constTool "42")]).

Definition writerA : Agent := Leaf "A" (leafCfg (callingModel "set_x" 1) [("set_x", writeTool "x" "1")]).
Definition readerB : Agent := Leaf "B" (leafCfg (callingModel "get_x" 1) [("get_x", readTool "x")]).

Definition monitorLoop : Agent := Loop "monitor" (Some 3) [Leaf "check" (leafCfg textModel [])].

(** Answers in text on its first turn and calls [exit_loop] on its
    second. *)
Definition exitingModel : string -> list Event -> ModelResult :=
  fun _ conv =>
    match turns_so_far conv with
    | 1%nat => MTurn (mkTurn "" [mkCall "call-exit" "exit_loop" "{}"])
    | _ => MTurn (mkTurn "working" [])
    end.

Definition exitingLoop : Agent :=
  Loop "refiner" (Some 5) [Leaf "worker" (leafCfg exitingModel [("exit_loop", exitLoopTool)])].

Definition brokenToolLeaf : Agent :=
  Leaf "helper" (leafCfg (callingModel "flaky" 1) [("flaky", brokenTool)]).

Definition parallelAB : Agent :=
  Parallel "fanout"
    [Leaf "A" (leafCfg (callingModel "set_a" 1) [("set_a", writeTool "a" "from-A")]);
     Leaf "B" (leafCfg (callingModel "set_b" 1) [("set_b", writeTool "b" "from-B")])].

(** A session created as the CLI's input-file mode creates it: with an
    initial state holding a [_time] entry (src/dev/src/cli/cli_run.ts). *)
Definition timedInit : State := {[ "_time" := "2026-10-14T00:00:00Z" ]}.
Definition timedSession : Session := createSession "app" "user" "s1" (Some timedInit).
Definition timedStore : SessionStore := {[ ("app", "user", "s1") := timedSession ]}.

Definition helloLeaf : Agent := Leaf "helper" (leafCfg textModel []).

Definition helloRun : option (list (Event * Session) * Session) :=
  run_first 10 (start (newInvocation "inv-1" (agentName helloLeaf)) helloLeaf)
    (withInput "inv-1" (Some "hi") timedSession).

Definition helloTrace : list (Event * Session) :=
  match helloRun with Some (tr, _) => tr | None => [] end.
Definition helloFinal : Session :=
  match helloRun with Some (_, s') => s' | None => timedSession end.

Definition trace_of (o : option (list (Event * Session) * Session)) : list (Event * Session) :=
  match o with Some (tr, _) => tr | None => [] end.
Definition final_of (o : option (list (Event * Session) * Session)) : Session :=
  match o with Some (_, s') => s' | None => session0 end.

Definition seqAB : Agent := Sequential "pipeline" [writerA; readerB].
Definition seqRun := run_first 50 (start ctx0 seqAB) session0.
Definition loop3Run := run_first 50 (start ctx0 monitorLoop) session0.
Definition exit5Run := run_first 50 (start ctx0 exitingLoop) session0.
Definition toolLoopRun := run_first 50 (start ctx0 toolLoopLeaf) session0.
Definition failingLeaf : Agent := Leaf "helper" (leafCfg failingModel []).
Definition failRun := run_first 50 (start ctx0 failingLeaf) session0.
Definition failingLoop : Agent := Loop "monitor" (Some 3) [failingLeaf].
Definition failLoopRun := run_first 50 (start ctx0 failingLoop) session0.
Definition parRun := run_first 50 (start ctx0 parallelAB) session0.

(** Two sub-agents that happen to share a name. *)
Definition dupParallel : Agent :=
  Parallel "fanout"
    [Leaf "worker" (leafCfg textModel []);
     Leaf "worker" (leafCfg (callingModel "set_b" 1) [("set_b", writeTool "b" "from-B")])].
Definition dupRun := run_first 50 (start ctx0 dupParallel) session0.

End RuntimeSamples.

(* ================================================================== *)
(** * Proofs *)
(* ================================================================== *)


Module CheckPrimeProofs.
Import CheckPrime.
Open Scope Z_scope.

Lemma trial_loop_spec (n : Z) (k : nat) : forall i,
  trial_loop n i k = true <->
  (forall j, i <= j < i + Z.of_nat k -> Z.rem n j <> 0).
Proof.
  induction k as [|k IH]; intros i; simpl.
  - split; [intros _ j Hj; lia | auto].
  - destruct (Z.eqb_spec (Z.rem n i) 0) as [E|E].
    + split; [discriminate|]. intros H. exfalso. apply (H i); [lia|exact E].
    + rewrite IH. split.
      * intros H j Hj. destruct (Z.eq_dec j i) as [->|Hne]; [exact E|].
        apply H. lia.
      * intros H j Hj. apply H. lia.
Qed.

Lemma rem_zero_factor (n d : Z) : d <> 0 -> Z.rem n d = 0 -> exists q, n = d * q.
Proof.
  intros Hd H. apply Z.rem_divide in H; [|exact Hd].
  destruct H as [q Hq]. exists q. lia.
Qed.

Lemma factor_rem_zero (n d q : Z) : d <> 0 -> n = d * q -> Z.rem n d = 0.
Proof.
  intros Hd ->. apply Z.rem_divide; [exact Hd|]. exists q. lia.
Qed.

Lemma isPrime_correct (n : Z) : 3 <= n -> isPrime n = true <-> prime_spec n.
Proof.
  intros Hn. unfold isPrime, prime_spec. rewrite trial_loop_spec.
  pose proof (Z.sqrt_spec n ltac:(lia)) as [Hlo Hhi].
  pose proof (Z.sqrt_nonneg n) as Hr0.
  set (r := Z.sqrt n) in *.
  assert (Hr1 : 1 <= r).
  { destruct (Z.le_gt_cases 1 r); [assumption|]. assert (r = 0) by lia.
    subst r. rewrite H0 in Hhi. lia. }
  rewrite Z2Nat.id by lia.
  split.
  - intros H. split; [lia|]. intros d Hd Hdd. apply H.
    assert (d <= r) by nia. lia.
  - intros [_ H] j Hj Hrem.
    assert (Hj' : j <= r \/ j = r + 1) by lia.
    destruct Hj' as [Hle|Heq].
    + apply (H j); [lia|nia|exact Hrem].
    + subst j. destruct (rem_zero_factor n (r + 1) ltac:(lia) Hrem) as [q Hq].
      assert (Hq1 : 1 <= q) by nia.
      assert (Hqr : q < r + 1) by nia.
      destruct (Z.eq_dec q 1) as [->|Hq2].
      * assert (r >= 2) by lia. nia.
      * apply (H q); [lia|nia|].
        apply (factor_rem_zero n q (r + 1)); [lia|lia].
Qed.

Lemma kept_correct (n : Z) : kept n = true <-> prime_spec n.
Proof.
  unfold kept. destruct (Z.leb_spec n 1).
  - split; [discriminate|]. intros [H' _]. lia.
  - destruct (Z.eqb_spec n 2) as [->|Hn2].
    + split; [intros _|reflexivity]. split; [lia|]. intros d Hd Hdd. nia.
    + apply isPrime_correct. lia.
Qed.

Lemma collect_kept (numbers primes : list Z) :
  collect numbers primes =
  fold_left (fun acc x => if kept x then set_add acc x else acc) numbers primes.
Proof.
  revert primes. induction numbers as [|x xs IH]; intros primes; simpl; [done|].
  unfold kept. destruct (x <=? 1); [apply IH|].
  destruct (x =? 2); [apply IH|]. destruct (isPrime x); apply IH.
Qed.

Lemma set_add_in (primes : list Z) (x y : Z) :
  In y (set_add primes x) <-> In y primes \/ y = x.
Proof.
  unfold set_add. destruct (existsb (Z.eqb x) primes) eqn:E.
  - apply existsb_exists in E as [z [Hz Hzx]]. apply Z.eqb_eq in Hzx. subst z.
    split; [auto|]. intros [H| ->]; auto.
  - rewrite in_app_iff. simpl. split; intros [H|H]; auto.
    destruct H as [H|[]]; auto.
Qed.

Lemma set_add_nodup (primes : list Z) (x : Z) :
  NoDup primes -> NoDup (set_add primes x).
Proof.
  intros H. unfold set_add. destruct (existsb (Z.eqb x) primes) eqn:E; [exact H|].
  apply NoDup_app. split; [exact H|]. split; [|constructor; [set_solver|constructor]].
  intros y Hy Hy'. apply list_elem_of_singleton in Hy'. subst y.
  apply list_elem_of_In in Hy.
  assert (existsb (Z.eqb x) primes = true) as E'.
  { apply existsb_exists. exists x. split; [exact Hy|apply Z.eqb_refl]. }
  congruence.
Qed.

Lemma collect_in (numbers primes : list Z) (y : Z) :
  In y (collect numbers primes) <-> In y primes \/ (In y numbers /\ prime_spec y).
Proof.
  revert primes. induction numbers as [|x xs IH]; intros primes.
  - simpl. tauto.
  - rewrite collect_kept. simpl. rewrite <- collect_kept. rewrite IH.
    destruct (kept x) eqn:K.
    + rewrite set_add_in. apply kept_correct in K.
      split; [intros [[H| ->]|[H1 H2]]; tauto|].
      intros [H|[[->|H1] H2]]; tauto.
    + split; [tauto|]. intros [H|[[->|H1] H2]]; [tauto| |tauto].
      apply kept_correct in H2. congruence.
Qed.

Lemma collect_nodup (numbers primes : list Z) :
  NoDup primes -> NoDup (collect numbers primes).
Proof.
  revert primes. induction numbers as [|x xs IH]; intros primes H; [exact H|].
  rewrite collect_kept. simpl. rewrite <- collect_kept. apply IH.
  destruct (kept x); [apply set_add_nodup|]; exact H.
Qed.

Lemma string_length_append (s t : string) :
  String.length (String.append s t) = (String.length s + String.length t)%nat.
Proof. induction s as [|c s IH]; simpl; [done|]. by rewrite IH. Qed.

Lemma suffix_not_no_primes (s : string) :
  String.append s primes_suffix <> no_primes_msg.
Proof.
  intros H. assert (Hl : String.length (String.append s primes_suffix) =
                         String.length no_primes_msg) by (rewrite H; reflexivity).
  rewrite string_length_append in Hl. simpl in Hl.
  destruct s as [|c1 [|c2 [|c3 [|c4 [|c5 s]]]]]; simpl in Hl; try lia.
  simpl in H. injection H. intros. discriminate.
Qed.

(** Claim C8: for every list [numbers], [execute] returns
    ["No prime numbers found."] exactly when no element is prime, and
    otherwise the message lists exactly the distinct prime elements, each
    once (in order of first occurrence). *)
Theorem check_prime_execute_correct (numbers : list Z) :
  (execute numbers = no_primes_msg <-> forall x, In x numbers -> ~ prime_spec x) /\
  ((exists x, In x numbers /\ prime_spec x) ->
   exists L, NoDup L /\ (forall x, In x L <-> In x numbers /\ prime_spec x) /\
     execute numbers =
       String.append (String.concat ", " (map number_to_string L)) primes_suffix).
Proof.
  assert (Hin : forall x, In x (collect numbers []) <-> In x numbers /\ prime_spec x).
  { intros x. rewrite collect_in. simpl. tauto. }
  unfold execute.
  destruct (length (collect numbers []) =? 0)%nat eqn:E.
  - apply Nat.eqb_eq, length_zero_iff_nil in E. rewrite E in Hin.
    split.
    + split; [|reflexivity]. intros _ x Hx Hp. apply (Hin x). tauto.
    + intros [x [Hx Hp]]. exfalso. apply (Hin x). tauto.
  - split.
    + split; [intros H; exfalso; exact (suffix_not_no_primes _ H)|].
      intros Hno. destruct (collect numbers []) as [|y ys] eqn:C; [discriminate|].
      exfalso. destruct (proj1 (Hin y) (or_introl eq_refl)) as [Hy Hp].
      exact (Hno y Hy Hp).
    + intros _. exists (collect numbers []). split; [apply collect_nodup; constructor|].
      split; [exact Hin|reflexivity].
Qed.

(** Witness for C8: [[4; 7; 7; 9]] lists [7] once. *)
Lemma check_prime_execute_correct_witness :
  exists L, NoDup L /\ (forall x, In x L <-> In x [4; 7; 7; 9] /\ prime_spec x) /\
     execute [4; 7; 7; 9] =
       String.append (String.concat ", " (map number_to_string L)) primes_suffix.
Proof.
  apply (proj2 (check_prime_execute_correct [4; 7; 7; 9])).
  exists 7. split; [simpl; auto|]. apply kept_correct. reflexivity.
Defined.

Lemma collect_cons (n : Z) (rest acc : list Z) :
  collect (n :: rest) acc = collect rest (if kept n then set_add acc n else acc).
Proof. rewrite !collect_kept. reflexivity. Qed.

Lemma collect_prefix (numbers acc : list Z) :
  exists R, collect numbers acc = acc ++ R.
Proof.
  revert acc. induction numbers as [|n rest IH]; intros acc.
  - exists []. simpl. by rewrite app_nil_r.
  - rewrite collect_cons. destruct (kept n).
    + destruct (IH (set_add acc n)) as [R HR]. rewrite HR. unfold set_add.
      destruct (existsb (Z.eqb n) acc); [by exists R|].
      exists ([n] ++ R). by rewrite app_assoc.
    + apply IH.
Qed.

Lemma lookup_in_list (l : list Z) (k : nat) (x : Z) : l !! k = Some x -> In x l.
Proof. intros H. apply list_elem_of_In. by eapply list_elem_of_lookup_2. Qed.

Lemma collect_order_aux (numbers : list Z) : forall acc i j x y,
  NoDup acc -> (i < j)%nat ->
  collect numbers acc !! i = Some x -> collect numbers acc !! j = Some y ->
  ~ In y acc ->
  In x acc \/
  exists a, numbers !! a = Some x /\ forall b, numbers !! b = Some y -> (a < b)%nat.
Proof.
  induction numbers as [|n rest IH]; intros acc i j x y Hnd Hij Hx Hy Hyacc.
  - simpl in Hy. exfalso. apply Hyacc. eapply lookup_in_list; exact Hy.
  - rewrite collect_cons in Hx, Hy.
    set (acc' := if kept n then set_add acc n else acc) in *.
    assert (Hnd' : NoDup acc').
    { unfold acc'. destruct (kept n); [apply set_add_nodup|]; exact Hnd. }
    assert (Hres : NoDup (collect rest acc')) by (apply collect_nodup; exact Hnd').
    destruct (in_dec Z.eq_dec y acc') as [Hy'|Hy'].
    + assert (Hshape : y = n /\ acc' = acc ++ [n]).
      { unfold acc' in Hy' |- *. destruct (kept n); [|contradiction].
        apply set_add_in in Hy'. destruct Hy' as [H| ->]; [contradiction|].
        split; [reflexivity|]. unfold set_add.
        destruct (existsb (Z.eqb n) acc) eqn:E; [|reflexivity].
        apply existsb_exists in E as [z [Hz Hzn]]. apply Z.eqb_eq in Hzn.
        subst z. contradiction. }
      destruct Hshape as [-> Hacc]. rewrite Hacc in Hx, Hy, Hres.
      destruct (collect_prefix rest (acc ++ [n])) as [R HR].
      rewrite HR in Hx, Hy, Hres.
      assert (Hn : ((acc ++ [n]) ++ R) !! length acc = Some n).
      { rewrite lookup_app_l by (rewrite length_app; simpl; lia).
        rewrite lookup_app_r by lia. by rewrite Nat.sub_diag. }
      pose proof (NoDup_lookup _ _ _ _ Hres Hy Hn) as ->.
      left. rewrite lookup_app_l in Hx by (rewrite length_app; simpl; lia).
      rewrite lookup_app_l in Hx by lia. eapply lookup_in_list; exact Hx.
    + assert (Hxy : x <> y).
      { intros ->. pose proof (NoDup_lookup _ _ _ _ Hres Hx Hy). lia. }
      assert (Hkept : kept y = true).
      { apply kept_correct. apply lookup_in_list in Hy.
        apply collect_in in Hy. destruct Hy as [H|[_ H]]; [contradiction|exact H]. }
      destruct (IH acc' i j x y Hnd' Hij Hx Hy Hy') as [Hxa|[a [Ha Hb]]].
      * destruct (in_dec Z.eq_dec x acc) as [Hin|Hnin]; [left; exact Hin|].
        assert (x = n).
        { unfold acc' in Hxa. destruct (kept n); [|contradiction].
          apply set_add_in in Hxa. destruct Hxa as [H|H]; [contradiction|exact H]. }
        subst x. right. exists 0%nat. split; [reflexivity|].
        intros [|b] Hb; [|lia]. simpl in Hb. injection Hb as Hb. congruence.
      * destruct (in_dec Z.eq_dec x acc) as [Hin|Hnin]; [left; exact Hin|].
        right. exists (S a). split; [exact Ha|].
        intros [|b] Hb'.
        -- simpl in Hb'. injection Hb' as ->. exfalso. apply Hy'.
           unfold acc'. rewrite Hkept. apply set_add_in. right. reflexivity.
        -- apply Hb in Hb'. lia.
Qed.

(** The primes [execute] lists come in the order of their first occurrence
    in [numbers]: when [x] stands before [y] in the collected set, some
    occurrence of [x] in [numbers] precedes every occurrence of [y]. *)
Theorem check_prime_first_occurrence_order (numbers : list Z) (i j : nat) (x y : Z) :
  (i < j)%nat -> collect numbers [] !! i = Some x -> collect numbers [] !! j = Some y ->
  exists a, numbers !! a = Some x /\ forall b, numbers !! b = Some y -> (a < b)%nat.
Proof.
  intros Hij Hx Hy.
  destruct (collect_order_aux numbers [] i j x y NoDup_nil_2 Hij Hx Hy (in_nil (a := y)))
    as [[]|H]; exact H.
Qed.

(** Witness: in [[9; 7; 4; 5; 7]] the set is [[7; 5]], and [7] occurs at
    index 1, before the only [5]. *)
Lemma check_prime_first_occurrence_order_witness :
  exists a, [9; 7; 4; 5; 7] !! a = Some 7 /\
    forall b, [9; 7; 4; 5; 7] !! b = Some 5 -> (a < b)%nat.
Proof.
  apply (check_prime_first_occurrence_order [9; 7; 4; 5; 7] 0%nat 1%nat 7 5);
    [lia|vm_compute; reflexivity|vm_compute; reflexivity].
Defined.

End CheckPrimeProofs.

Module AgentGraphProofs.
Import AgentGraph.

(** Claim C10: [buildGraph] applied to a [LoopAgent] or [SequentialAgent]
    with an empty [subAgents] array while a [parentAgent] is supplied reads
    [agent.subAgents[0].name] on [undefined] in [buildCluster] and throws a
    [TypeError] instead of producing a graph, whatever the target graph,
    highlight pairs and graph state. *)
Theorem buildGraph_empty_composite_throws (graph : nat) (cls : AgentClass)
    (nm : string) (tls : list BaseTool) (highlightsPairs : list (string * string))
    (parent : BaseAgent) (st : Store) :
  cls = LoopAgentC \/ cls = SequentialAgentC ->
  buildGraph graph (mkAgent cls nm [] tls) highlightsPairs (Some parent) st =
    Throw TypeError.
Proof.
  intros [-> | ->]; cbn [buildGraph]; unfold bind, drawNode, new_subgraph;
    cbn [shouldBuildAgentCluster agent_class];
    destruct (existsb _ highlightsPairs); reflexivity.
Qed.

(** The nesting the claim mentions: an empty [LoopAgent] inside a
    [SequentialAgent] makes [getAgentGraph] throw. *)
Example getAgentGraph_nested_empty_loop :
  getAgentGraph (mkAgent SequentialAgentC "outer" [mkAgent LoopAgentC "inner" [] []] []) []
  = Throw TypeError.
Proof. vm_compute. reflexivity. Qed.

(** The same empty [LoopAgent] at the root (no parent) draws its cluster. *)
Example getAgentGraph_root_empty_loop :
  exists st, getAgentGraph (mkAgent LoopAgentC "inner" [] []) [] = Ok tt st.
Proof. eexists. vm_compute. reflexivity. Qed.

(** Witness for C10: an empty [LoopAgent] drawn under a parent. *)
Lemma buildGraph_empty_composite_throws_witness :
  buildGraph 0 (mkAgent LoopAgentC "inner" [] []) []
    (Some (mkAgent SequentialAgentC "outer" [] [])) (mkStore 1 []) = Throw TypeError.
Proof. apply buildGraph_empty_composite_throws. left. reflexivity. Defined.

Lemma extends_refl st : extends st st.
Proof. split; [lia|]. exists []. by rewrite app_nil_r. Qed.

Lemma extends_trans s1 s2 s3 : extends s1 s2 -> extends s2 s3 -> extends s1 s3.
Proof.
  intros [H1 [n1 E1]] [H2 [n2 E2]]. split; [lia|]. exists (n1 ++ n2)%list.
  by rewrite E2, E1, app_assoc.
Qed.

Lemma good_ret {A} (a : A) : GoodM (ret a) true.
Proof. intros st. split; [reflexivity|apply extends_refl]. Qed.

Lemma good_emit op : GoodM (emit op) true.
Proof. intros st. split; [reflexivity|]. split; [simpl; lia|]. by eexists. Qed.

Lemma good_new_subgraph parent name : GoodM (new_subgraph parent name) true.
Proof. intros st. split; [reflexivity|]. split; [simpl; lia|]. by eexists. Qed.

Lemma good_bind {A B} (m : M A) (k : A -> M B) b1 b2 :
  GoodM m b1 -> (forall a, GoodM (k a) b2) -> GoodM (bind m k) (b1 && b2).
Proof.
  intros Hm Hk st. unfold bind. specialize (Hm st). destruct (m st) as [a st1|e].
  - destruct Hm as [-> E1]. specialize (Hk a st1). destruct (k a st1) as [b st2|e].
    + destruct Hk as [-> E2]. split; [reflexivity|exact (extends_trans _ _ _ E1 E2)].
    + exact Hk.
  - destruct Hm as [-> ->]. split; reflexivity.
Qed.

Lemma good_weaken {A} (m : M A) b b' : GoodM m b -> b = b' -> GoodM m b'.
Proof. by intros H <-. Qed.

Lemma good_name_at l i : GoodM (name_at l i) (Nat.ltb i (length l)).
Proof.
  intros st. unfold name_at. destruct (nth_error l i) eqn:E.
  - split; [apply Nat.ltb_lt, nth_error_Some; congruence|apply extends_refl].
  - split; [reflexivity|]. apply Nat.ltb_ge, nth_error_None, E.
Qed.

Lemma good_graph_node graph name : GoodM (graph_node graph name) true.
Proof.
  intros st. unfold graph_node. destruct (hasNode graph name (ops st)).
  - split; [reflexivity|apply extends_refl].
  - split; [reflexivity|]. split; [simpl; lia|]. by eexists.
Qed.

Lemma good_drawEdge graph root hp fromName toName :
  GoodM (drawEdge graph root hp fromName toName) true.
Proof.
  unfold drawEdge. induction hp as [|[a b] rest IH]; cbn [drawEdge_pairs].
  - destruct (shouldBuildAgentCluster (IsAgent root)); apply good_emit.
  - assert (Hn : forall attrs, GoodM (let* f := graph_node graph fromName in
                                      let* t := graph_node graph toName in
                                      emit (AddEdge graph f t attrs)) true).
    { intros attrs. exact (good_bind _ _ true true (good_graph_node _ _) (fun f =>
        good_bind _ _ true true (good_graph_node _ _) (fun t => good_emit _))). }
    destruct (_ && _); [apply Hn|]. destruct (_ && _); [apply Hn|exact IH].
Qed.

Lemma good_forEach {A} (xs : list A) : forall i (body : nat -> A -> M unit),
  (forall j x, GoodM (body j x) true) -> GoodM (forEach_from i xs body) true.
Proof.
  induction xs as [|x rest IH]; intros i body Hb; simpl; [apply good_ret|].
  exact (good_bind _ _ true true (Hb i x) (fun _ => IH (S i) body Hb)).
Qed.

Lemma good_drawNode graph hp cb x b :
  (forall c, GoodM (cb c) b) ->
  GoodM (drawNode graph hp cb x) (if shouldBuildAgentCluster x then b else true).
Proof.
  intros Hcb. unfold drawNode.
  assert (Hc : GoodM (let* c := new_subgraph graph ("cluster_" ++ getNodeName x) in cb c) b).
  { exact (good_bind _ _ true b (good_new_subgraph _ _) Hcb). }
  destruct (existsb _ hp), (shouldBuildAgentCluster x); try exact Hc; apply good_emit.
Qed.

Lemma good_recurse hp root (l : list BaseAgent) : forall g i after,
  Forall (fun s => forall g', GoodM (buildGraph g' s hp (Some root)) (wellFormed s true)) l ->
  (forall j s, i <= j -> j < i + length l -> GoodM (after j s) true) ->
  GoodM (recurse_with hp root g l i after) (forallb (fun s => wellFormed s true) l).
Proof.
  induction l as [|s rest IH]; intros g i after Hl Ha; [apply good_ret|].
  inversion Hl as [|? ? Hs Hrest]; subst.
  change (recurse_with hp root g (s :: rest) i after) with
    (let* _ := buildGraph g s hp (Some root) in
     let* _ := after i s in recurse_with hp root g rest (S i) after).
  eapply good_weaken.
  - eapply good_bind; [exact (Hs g)|intros _].
    eapply good_bind; [apply Ha; simpl; lia|intros _].
    apply IH; [exact Hrest|]. intros j s' Hj1 Hj2. apply Ha; simpl; lia.
  - reflexivity.
Qed.

Lemma good_if {A} (c : bool) (m1 m2 : M A) b1 b2 :
  GoodM m1 b1 -> GoodM m2 b2 -> GoodM (if c then m1 else m2) (if c then b1 else b2).
Proof. by destruct c. Qed.

Ltac good_auto :=
  lazymatch goal with
  | |- GoodM (bind _ _) _ => eapply good_bind; [good_auto | intros ?; good_auto]
  | |- GoodM (ret _) _ => apply good_ret
  | |- GoodM (drawEdge _ _ _ _ _) _ => apply good_drawEdge
  | |- GoodM (name_at _ _) _ => apply good_name_at
  | |- GoodM (drawNode _ _ _ _) _ => apply good_drawNode; intros ?; good_auto
  | |- GoodM (forEach_from _ _ _) _ =>
      apply good_forEach; intros ? ?; eapply good_weaken; [good_auto|reflexivity]
  | |- GoodM (recurse_with _ _ _ _ _ _) _ =>
      apply good_recurse; [assumption|intros ? ? ? ?; eapply good_weaken; [good_auto|]]
  | |- GoodM (if _ then _ else _) _ => apply good_if; good_auto
  end.

Ltac close_bool :=
  repeat match goal with
  | |- context [Nat.eqb ?a ?b] => destruct (Nat.eqb_spec a b)
  | |- context [if ?c then _ else _] => destruct c
  end; simpl; rewrite ?andb_true_r;
  repeat (apply andb_true_intro; split); try reflexivity; apply Nat.ltb_lt; lia.

Lemma buildGraph_good hp (a : BaseAgent) : forall graph par,
  GoodM (buildGraph graph a hp par) (wellFormed a (match par with Some _ => true | None => false end)).
Proof.
  induction a as [cls nm subs tls IH] using BaseAgent_ind'. intros graph par.
  cbn [buildGraph]. fold (recurse_with hp (mkAgent cls nm subs tls)).
  assert (IH' : Forall (fun s => forall g',
            GoodM (buildGraph g' s hp (Some (mkAgent cls nm subs tls))) (wellFormed s true)) subs).
  { eapply Forall_impl; [exact IH|]. intros s Hs g'. exact (Hs g' (Some _)). }
  clear IH.
  destruct cls, par; cbv beta iota.
  all: eapply good_weaken; [good_auto|].
  all: simpl; rewrite ?andb_true_r.
  all: try (destruct (forallb (fun s => wellFormed s true) subs), (length subs); reflexivity).
  all: try (match goal with |- (if ?c then true else true) = true => by destruct c end).
  all: destruct (Nat.eqb_spec j (length subs - 1)); simpl;
    repeat (apply andb_true_intro; split); try reflexivity; apply Nat.ltb_lt; lia.
Qed.

(** [buildGraph] throws nothing but the [TypeError] of an empty
    [subAgents] array: it succeeds exactly when every [LoopAgent] and
    [SequentialAgent] drawn with a parent (the root with
    [parentAgent], every agent below it) has a sub-agent. *)
Theorem buildGraph_succeeds_iff graph rootAgent highlightsPairs parentAgent st :
  ((exists st', buildGraph graph rootAgent highlightsPairs parentAgent st = Ok tt st') <->
   wellFormed rootAgent (match parentAgent with Some _ => true | None => false end) = true) /\
  (forall e, buildGraph graph rootAgent highlightsPairs parentAgent st = Throw e -> e = TypeError).
Proof.
  pose proof (buildGraph_good highlightsPairs rootAgent graph parentAgent st) as H.
  destruct (buildGraph graph rootAgent highlightsPairs parentAgent st) as [[] st'|e].
  - destruct H as [Hw _]. split; [split; [intros _; exact Hw|intros _; by exists st']|].
    intros e He. discriminate.
  - destruct H as [-> Hw]. split; [|intros e' He; injection He as <-; reflexivity].
    split; [intros [st' Hst]; discriminate|intros Ht; congruence].
Qed.


(** [drawEdge] adds one edge to [graph]. When a highlight pair joins the
    two names in either direction, it first takes the nodes of [graph]
    with those ids (source, then target) through [graph.node], which adds
    a bare node for a name [graph] does not hold yet, and links them in
    green (backwards for a reversed pair); otherwise it adds nothing but an
    edge between new nodes, in green under a composite root agent and grey
    without arrowhead under any other. *)
Theorem drawEdge_one_edge graph rootAgent highlightsPairs fromName toName st :
  exists attrs,
    if existsb (fun '(hf, ht) => (String.eqb fromName hf && String.eqb toName ht) ||
                                 (String.eqb fromName ht && String.eqb toName hf))
               highlightsPairs
    then
      let os1 := (ops st ++ (if hasNode graph fromName (ops st) then []
                             else [AddBareNode graph fromName]))%list in
      let os2 := (os1 ++ (if hasNode graph toName os1 then []
                          else [AddBareNode graph toName]))%list in
      drawEdge graph rootAgent highlightsPairs fromName toName st =
        Ok tt (mkStore (next_gid st)
                 (os2 ++ [AddEdge graph (GraphNode fromName) (GraphNode toName) attrs])%list) /\
      hd_error attrs = Some ("color", LIGHT_GREEN)
    else
      drawEdge graph rootAgent highlightsPairs fromName toName st =
        Ok tt (mkStore (next_gid st)
                 (ops st ++ [AddEdge graph (FreshNode fromName) (FreshNode toName) attrs])%list) /\
      attrs = (if shouldBuildAgentCluster (IsAgent rootAgent) then [("color", LIGHT_GREEN)]
               else [("arrowhead", "none"); ("color", LIGHT_GRAY)]).
Proof.
  assert (Hn : forall attrs,
    (let* f := graph_node graph fromName in
     let* t := graph_node graph toName in
     emit (AddEdge graph f t attrs)) st =
    (let os1 := (ops st ++ (if hasNode graph fromName (ops st) then []
                            else [AddBareNode graph fromName]))%list in
     let os2 := (os1 ++ (if hasNode graph toName os1 then []
                         else [AddBareNode graph toName]))%list in
     Ok tt (mkStore (next_gid st)
              (os2 ++ [AddEdge graph (GraphNode fromName) (GraphNode toName) attrs])%list))).
  { intros attrs. cbv zeta. unfold bind, graph_node, emit.
    destruct (hasNode graph fromName (ops st)); cbn [ops next_gid]; rewrite ?app_nil_r;
      destruct (hasNode graph toName _); cbn [ops next_gid]; rewrite ?app_nil_r; reflexivity. }
  unfold drawEdge. induction highlightsPairs as [|[hf ht] rest IH];
    cbn [drawEdge_pairs existsb]; cbv beta iota.
  - destruct (shouldBuildAgentCluster (IsAgent rootAgent));
      eexists; split; reflexivity.
  - destruct (String.eqb fromName hf && String.eqb toName ht) eqn:E1.
    + eexists. cbn [orb]. split; [apply Hn|reflexivity].
    + destruct (String.eqb fromName ht && String.eqb toName hf) eqn:E2.
      * eexists. cbn [orb]. split; [apply Hn|reflexivity].
      * cbn [orb]. exact IH.
Qed.


End AgentGraphProofs.

Module GeminiStreamProofs.
Import GeminiStream.

Section Refinement.

Variable GenerateContentResponse : Type.
Variable UsageMetadata : Type.
Variable LlmExtra : Type.
Variable createLlmResponse :
  GenerateContentResponse -> LlmResponse UsageMetadata LlmExtra.
Variable finishReasonIsStop : GenerateContentResponse -> bool.

Lemma rev_chunk_not_gemini3 (cached : option string)
    (st : StreamSt GenerateContentResponse UsageMetadata)
    (r : GenerateContentResponse) :
  let '(st', _, out) := rev_chunk _ _ _ createLlmResponse false cached st r in
  (st', out) = orig_chunk _ _ _ createLlmResponse st r.
Proof.
  unfold rev_chunk, orig_chunk, rev_capture, rev_sign_calls. cbn [andb].
  destruct (first_text_truthy _ _ _) as [p|].
  - destruct (accumulate _ _ _ _) as [sta signed]. reflexivity.
  - destruct (may_flush _ _ _ _); reflexivity.
Qed.

Lemma rev_loop_not_gemini3 (rs : list GenerateContentResponse) :
  forall (cached : option string) (st : StreamSt GenerateContentResponse UsageMetadata),
  let '(st', _, out) := rev_loop _ _ _ createLlmResponse false cached st rs in
  (st', out) = orig_loop _ _ _ createLlmResponse st rs.
Proof.
  induction rs as [|r rest IH]; intros cached st; [reflexivity|].
  cbn [rev_loop orig_loop].
  pose proof (rev_chunk_not_gemini3 cached st r) as Hc.
  destruct (rev_chunk _ _ _ _ _ _ _ _) as [[st1 cached1] out1].
  rewrite <- Hc.
  specialize (IH cached1 st1).
  destruct (rev_loop _ _ _ _ _ _ _ _) as [[st2 cached2] out2].
  rewrite <- IH. reflexivity.
Qed.

(** Claim C9: for every model name on which [isGemini3PreviewModel] is
    false, the revised [generateContentAsync] yields exactly the
    responses of the original one, for every cached signature, both
    streaming modes and every response the API client returns. *)
Theorem generateContentAsync_rev_refines_orig (isGemini3PreviewModel : string -> bool)
    (model : option string) :
  isGemini3PreviewModel (gemini_model model) = false ->
  forall (cached : option string) (stream : bool)
         (rs : list GenerateContentResponse) (r : GenerateContentResponse),
  fst (generateContentAsync_rev _ _ _ createLlmResponse finishReasonIsStop
         (isGemini3PreviewModel (gemini_model model)) cached stream rs r) =
  generateContentAsync_orig _ _ _ createLlmResponse finishReasonIsStop stream rs r.
Proof.
  intros Hm cached stream rs r. rewrite Hm.
  unfold generateContentAsync_rev, generateContentAsync_orig.
  destruct stream.
  - pose proof (rev_loop_not_gemini3 rs cached (init_st _ _)) as H.
    destruct (rev_loop _ _ _ _ _ _ _ _) as [[st cached'] out].
    rewrite <- H. reflexivity.
  - reflexivity.
Qed.

End Refinement.

Lemma str_app_assoc (a b c : string) :
  String.append (String.append a b) c = String.append a (String.append b c).
Proof.
  induction a as [|x a IH]; [reflexivity|].
  change (String x (String.append (String.append a b) c) =
          String x (String.append a (String.append b c))). by rewrite IH.
Qed.

Lemma str_app_empty_r (a : string) : String.append a "" = a.
Proof.
  induction a as [|x a IH]; [reflexivity|].
  change (String x (String.append a "") = String x a). by rewrite IH.
Qed.

Section OrigStream.

Variable GenerateContentResponse : Type.
Variable UsageMetadata : Type.
Variable LlmExtra : Type.
Variable createLlmResponse :
  GenerateContentResponse -> LlmResponse UsageMetadata LlmExtra.
Variable finishReasonIsStop : GenerateContentResponse -> bool.

Lemma flush_parts_nonempty mkText (st : StreamSt GenerateContentResponse UsageMetadata) :
  str_truthy (thoughtText _ _ st) || str_truthy (accText _ _ st) = true ->
  flush_parts _ _ mkText st <> [].
Proof.
  unfold flush_parts. destruct (str_truthy (thoughtText _ _ st)), (str_truthy (accText _ _ st));
    simpl; discriminate.
Qed.

Lemma orig_chunk_yields (st : StreamSt GenerateContentResponse UsageMetadata)
    (x : GenerateContentResponse) :
  exists l, (l = [] \/ exists ps u, l = [flush_response _ _ ps u] /\ ps <> []) /\
    snd (orig_chunk _ _ _ createLlmResponse st x) =
      (l ++ [match first_text_truthy _ _ (createLlmResponse x) with
             | Some _ => set_partial _ _ (createLlmResponse x)
             | None => createLlmResponse x
             end])%list.
Proof.
  unfold orig_chunk. destruct (first_text_truthy _ _ (createLlmResponse x)) as [p|].
  - destruct (accumulate _ _ _ _) as [st' b]. exists []. split; [left; reflexivity|reflexivity].
  - destruct (may_flush _ _ _ _) eqn:Hm.
    + eexists. split; [right; do 2 eexists; split; [reflexivity|]|reflexivity].
      apply flush_parts_nonempty. unfold may_flush in Hm. simpl in Hm.
      apply andb_true_iff in Hm as [Hm _]. exact Hm.
    + exists []. split; [left; reflexivity|reflexivity].
Qed.

(** The original streaming loop yields every response of the API client
    exactly once and in order, each preceded by at most one flushed
    response, which has at least one part; a response is marked [partial]
    exactly when its first part has a truthy [text]. *)
Theorem orig_loop_yields_each_once (st : StreamSt GenerateContentResponse UsageMetadata)
    (rs : list GenerateContentResponse) :
  exists fl : list (list (LlmResponse UsageMetadata LlmExtra)),
    length fl = length rs /\
    Forall (fun l => l = [] \/ exists ps u, l = [flush_response _ _ ps u] /\ ps <> []) fl /\
    snd (orig_loop _ _ _ createLlmResponse st rs) =
      concat (zip_with (fun l x =>
        (l ++ [match first_text_truthy _ _ (createLlmResponse x) with
               | Some _ => set_partial _ _ (createLlmResponse x)
               | None => createLlmResponse x
               end])%list) fl rs).
Proof.
  revert st. induction rs as [|x rest IH]; intros st.
  - exists []. split; [reflexivity|]. split; [constructor|reflexivity].
  - cbn [orig_loop].
    destruct (orig_chunk_yields st x) as (l & Hl & Hc).
    destruct (orig_chunk _ _ _ createLlmResponse st x) as [st1 out1] eqn:E1.
    destruct (IH st1) as (fl & Hlen & Hfl & Hrest).
    destruct (orig_loop _ _ _ createLlmResponse st1 rest) as [st2 out2] eqn:E2.
    exists (l :: fl). split; [simpl; lia|]. split; [constructor; assumption|].
    simpl in Hc, Hrest |- *. rewrite Hc, Hrest. reflexivity.
Qed.

Lemma first_text_truthy_text (r : LlmResponse UsageMetadata LlmExtra) p :
  first_text_truthy _ _ r = Some p -> truthy (text p) = true.
Proof.
  unfold first_text_truthy. destruct (firstPart _ _ r) as [q|]; [|discriminate].
  destruct (truthy (text q)) eqn:E; [|discriminate]. intros H. injection H as <-. exact E.
Qed.

Lemma orig_loop_text_chunks (rs : list GenerateContentResponse) :
  Forall (fun x => exists p, first_text_truthy _ _ (createLlmResponse x) = Some p /\
                             thought p <> Some true) rs ->
  forall st : StreamSt GenerateContentResponse UsageMetadata,
  thoughtText _ _ st = "" ->
  let '(st', out) := orig_loop _ _ _ createLlmResponse st rs in
  out = map (fun x => set_partial _ _ (createLlmResponse x)) rs /\
  thoughtText _ _ st' = "" /\
  accText _ _ st' = String.append (accText _ _ st)
    (foldr String.append "" (map (fun x =>
       match first_text_truthy _ _ (createLlmResponse x) with
       | Some p => or_empty (text p) | None => "" end) rs)) /\
  (forall y, last rs = Some y ->
     usage _ _ st' = usageMetadata _ _ (createLlmResponse y) /\
     lastResponse _ _ st' = Some y).
Proof.
  induction rs as [|x rest IH]; intros Hall st Ht.
  - split; [reflexivity|]. split; [exact Ht|]. split; [by rewrite str_app_empty_r|].
    intros y Hy. discriminate.
  - inversion Hall as [|? ? (p & Hp & Hth) Hrest]; subst.
    cbn [orig_loop]. unfold orig_chunk. rewrite Hp.
    set (st1 := mkStreamSt _ _ (thoughtText _ _ st) (thoughtSig _ _ st)
                  (String.append (accText _ _ st) (or_empty (text p)))
                  (usageMetadata _ _ (createLlmResponse x)) (Some x)).
    assert (Hacc : accumulate _ _
              (mkStreamSt _ _ (thoughtText _ _ st) (thoughtSig _ _ st) (accText _ _ st)
                 (usageMetadata _ _ (createLlmResponse x)) (Some x)) p = (st1, false)).
    { unfold accumulate. destruct (thought p) as [[|]|]; [congruence|reflexivity|reflexivity]. }
    rewrite Hacc.
    specialize (IH Hrest st1 Ht).
    destruct (orig_loop _ _ _ createLlmResponse st1 rest) as [st2 out2] eqn:E.
    destruct IH as (Hout & Ht2 & Ha2 & Hu2).
    split; [simpl; by rewrite Hout|]. split; [exact Ht2|]. split.
    + rewrite Ha2. cbn [map foldr]. rewrite Hp. subst st1. simpl. by rewrite str_app_assoc.
    + intros y Hy. destruct rest as [|z rest'].
      * simpl in E. injection E as <- <-. simpl in Hy. injection Hy as <-. split; reflexivity.
      * apply Hu2. exact Hy.
Qed.

(** The original [generateContentAsync] in streaming mode, on a stream
    whose every response starts with a non-thought text part: it yields
    every response marked [partial], then, when the last one finished with
    [STOP], one response whose only part holds the concatenation of all
    the texts. *)
Theorem orig_text_stream_aggregates (rs : list GenerateContentResponse)
    (r y : GenerateContentResponse) :
  last rs = Some y ->
  Forall (fun x => exists p, first_text_truthy _ _ (createLlmResponse x) = Some p /\
                             thought p <> Some true) rs ->
  generateContentAsync_orig _ _ _ createLlmResponse finishReasonIsStop true rs r =
    (map (fun x => set_partial _ _ (createLlmResponse x)) rs ++
     (if finishReasonIsStop y then
        [flush_response _ _
           [mkPart (Some (foldr String.append "" (map (fun x =>
              match first_text_truthy _ _ (createLlmResponse x) with
              | Some p => or_empty (text p) | None => "" end) rs))) None None None None]
           (usageMetadata _ _ (createLlmResponse y))]
      else []))%list.
Proof.
  intros Hy Hall.
  unfold generateContentAsync_orig.
  pose proof (orig_loop_text_chunks rs Hall (init_st _ _) eq_refl) as H.
  destruct (orig_loop _ _ _ createLlmResponse (init_st _ _) rs) as [st out].
  destruct H as (Hout & Ht & Ha & Hu). destruct (Hu y Hy) as [Hus Hlr].
  set (T := foldr String.append "" _) in *.
  assert (HT : str_truthy T = true).
  { subst T. destruct rs as [|x rest]; [discriminate|].
    inversion Hall as [|? ? (p & Hp & _) _]; subst.
    cbn [map foldr]. rewrite Hp. apply first_text_truthy_text in Hp.
    destruct (text p) as [[|c s]|]; try discriminate. reflexivity. }
  rewrite Hout. f_equal.
  unfold final_flush, flush_parts. rewrite Ht, Hlr, Hus, Ha.
  change (String.append (accText _ _ (init_st _ _)) T) with T. rewrite HT.
  simpl. destruct (finishReasonIsStop y); reflexivity.
Qed.

End OrigStream.

(** Witness of [orig_text_stream_aggregates]: two text chunks, the last
    one finished with [STOP]. *)
Lemma orig_text_stream_aggregates_witness :
  let Resp := LlmResponse unit unit in
  let mk (t : string) : Resp :=
    mkLlmResponse _ _ (Some (mkContent (Some "model") (Some [mkPart (Some t) None None None None])))
      None None None in
  generateContentAsync_orig Resp unit unit (fun x => x) (fun _ => true) true
    [mk "Hel"; mk "lo"] (mk "") =
  [set_partial _ _ (mk "Hel"); set_partial _ _ (mk "lo");
   flush_response _ _ [mkPart (Some "Hello") None None None None] None].
Proof.
  intros Resp mk.
  apply (orig_text_stream_aggregates Resp unit unit (fun x => x) (fun _ => true)
           [mk "Hel"; mk "lo"] (mk "") (mk "lo")); [reflexivity|].
  repeat (apply List.Forall_cons; [eexists; split; [reflexivity|discriminate]|]).
  apply List.Forall_nil.
Defined.

(** Witness for C9: the default model ["gemini-2.5-flash"], responses that
    are their own [LlmResponse], one thought chunk then one function call. *)
Lemma generateContentAsync_rev_refines_orig_witness :
  let Resp := LlmResponse unit unit in
  let mk (ps : list Part) : Resp :=
    mkLlmResponse _ _ (Some (mkContent (Some "model") (Some ps))) None None None in
  let isPreview (m : string) := String.eqb m "gemini-3-pro-preview" in
  isPreview (gemini_model None) = false /\
  fst (generateContentAsync_rev Resp unit unit (fun x => x) (fun _ => true)
         (isPreview (gemini_model None)) (Some "OLD") true
         [mk [mkPart (Some "think") (Some true) (Some "SIG") None None];
          mk [mkPart None None None (Some (mkFunctionCall "f" "{}")) None]] (mk [])) =
  generateContentAsync_orig Resp unit unit (fun x => x) (fun _ => true) true
         [mk [mkPart (Some "think") (Some true) (Some "SIG") None None];
          mk [mkPart None None None (Some (mkFunctionCall "f" "{}")) None]] (mk []).
Proof.
  intros Resp mk isPreview. split; [reflexivity|].
  apply (generateContentAsync_rev_refines_orig Resp unit unit (fun x => x) (fun _ => true)
           isPreview None). reflexivity.
Defined.

End GeminiStreamProofs.

Module GeminiConfigProofs.
Import GeminiStream GeminiConfig GeminiConfigSamples.
Open Scope string_scope.

Ltac split_ifs :=
  repeat match goal with
  | |- context [if ?b then _ else _] => destruct b eqn:?
  | H : context [if ?b then _ else _] |- _ => destruct b eqn:?
  end.

Ltac truthy_cases :=
  repeat (simpl; match goal with
  | E : truthy ?x = _ |- context [truthy ?x] => rewrite E
  | |- context [truthy ?x] =>
      lazymatch x with
      | (if _ then _ else _) => fail
      | _ => let E := fresh "E" in destruct (truthy x) eqn:E
      end
  end); simpl.

Ltac split_atom b :=
  lazymatch b with
  | negb ?c => split_atom c
  | ?c1 && _ => split_atom c1
  | ?c1 || _ => split_atom c1
  | truthy (if ?c then _ else _) => split_atom c
  | _ => let E := fresh "E" in destruct b eqn:E
  end.

Ltac atom_cases :=
  repeat (simpl; match goal with
  | |- context [if ?b then _ else _] => split_atom b
  end); simpl.

Lemma truthy_js_or (a b : option string) : truthy (js_or a b) = truthy a || truthy b.
Proof. unfold js_or. destruct (truthy a) eqn:E; simpl; [exact E|reflexivity]. Qed.

(** The constructor ends with credentials for the mode it chose: a
    project and a location in Vertex AI mode, an API key otherwise. *)
Theorem construct_has_credentials (isP : string -> bool) (canReadEnv : bool) (env : Env) (p : GeminiParams) g :
  construct isP canReadEnv env p = inr g ->
  (self_vertexai g = true -> truthy (self_project g) = true /\ truthy (self_location g) = true) /\
  (self_vertexai g = false -> truthy (self_apiKey g) = true).
Proof.
  unfold construct. cbv zeta. split_ifs; intros H; try discriminate;
    injection H as <-; simpl; split; intros; try discriminate;
    try (split; apply negb_false_iff; assumption); apply negb_false_iff; assumption.
Qed.

(** Without Vertex AI requested (no [vertexai: true] and no truthy
    [GOOGLE_GENAI_USE_VERTEXAI] that can be read), the constructor is in
    API key mode: it takes the first truthy key among [apiKey],
    [GOOGLE_GENAI_API_KEY] and [GEMINI_API_KEY] (the variables only when
    [process] can be read), and throws the API key error when there is
    none. *)
Theorem construct_api_key_mode (isP : string -> bool) (canReadEnv : bool) (env : Env) (p : GeminiParams) :
  vertexai p <> Some true ->
  (canReadEnv = false \/ truthy (env "GOOGLE_GENAI_USE_VERTEXAI") = false) ->
  let key := js_or (apiKey p)
               (if canReadEnv then js_or (env "GOOGLE_GENAI_API_KEY") (env "GEMINI_API_KEY")
                else None) in
  match construct isP canReadEnv env p with
  | inl e => e = ApiKeyMissing /\ truthy key = false
  | inr g => self_vertexai g = false /\ self_apiKey g = key /\ truthy key = true
  end.
Proof.
  intros Hv Henv key. subst key. unfold construct. cbv zeta.
  assert (Hu : match vertexai p with Some b => b | None => false end = false)
    by (destruct (vertexai p) as [[|]|]; congruence).
  rewrite Hu. simpl.
  destruct canReadEnv; simpl.
  - destruct Henv as [Hc|Hf]; [discriminate|]. rewrite Hf. simpl. rewrite andb_false_r.
    unfold js_or. destruct (truthy (apiKey p)) eqn:Ek; simpl;
      [rewrite Ek; simpl; auto|].
    destruct (truthy (if truthy (env "GOOGLE_GENAI_API_KEY") then env "GOOGLE_GENAI_API_KEY"
                      else env "GEMINI_API_KEY")) eqn:Ee; simpl; auto.
  - rewrite andb_false_r. unfold js_or. simpl.
    destruct (truthy (apiKey p)) eqn:Ek; simpl; [rewrite Ek; simpl; auto|].
    rewrite Ek. simpl. auto.
Qed.

(** For a Gemini 3 preview model, an available API key always wins: the
    constructor succeeds in API key mode with that key, whatever
    [vertexai] and [GOOGLE_GENAI_USE_VERTEXAI] say. *)
Theorem construct_preview_prefers_api_key (isP : string -> bool) (canReadEnv : bool) (env : Env) (p : GeminiParams) :
  isP (gemini_model (model p)) = true ->
  let key := js_or (apiKey p)
               (if canReadEnv then js_or (env "GOOGLE_GENAI_API_KEY") (env "GEMINI_API_KEY")
                else None) in
  truthy key = true ->
  exists g, construct isP canReadEnv env p = inr g /\
            self_vertexai g = false /\ self_apiKey g = key /\ self_isGemini3Preview g = true.
Proof.
  intros Hp key Hk. subst key. unfold construct. cbv zeta. rewrite Hp. simpl.
  set (use1 := if negb _ && canReadEnv then _ else _).
  destruct use1; simpl.
  - repeat (rewrite Hk; simpl). eexists; split; [reflexivity|auto].
  - rewrite truthy_js_or in Hk. destruct (truthy (apiKey p)) eqn:Ek; simpl in Hk.
    + rewrite ?Ek. simpl. rewrite ?Ek. simpl.
      eexists; split; [reflexivity|]. simpl. unfold js_or. rewrite Ek. auto.
    + destruct canReadEnv; simpl in Hk; [|discriminate]. rewrite ?Ek. simpl.
      rewrite ?Hk. simpl. eexists; split; [reflexivity|]. simpl. unfold js_or at 2. rewrite Ek. auto.
Qed.

(** In Vertex AI mode ([vertexai: true], and not switched to API key
    mode), the project and the location come from the parameters or from
    [GOOGLE_CLOUD_PROJECT] / [GOOGLE_CLOUD_LOCATION]; the constructor
    succeeds exactly when both are truthy, and otherwise reports a missing
    project first, then a missing location; [apiKey] is kept as given. *)
Theorem construct_vertex_mode (isP : string -> bool) (canReadEnv : bool) (env : Env) (p : GeminiParams) :
  vertexai p = Some true ->
  (isP (gemini_model (model p)) = false \/
   truthy (js_or (apiKey p)
             (if canReadEnv then js_or (env "GOOGLE_GENAI_API_KEY") (env "GEMINI_API_KEY")
              else None)) = false) ->
  let proj := js_or (project p) (if canReadEnv then env "GOOGLE_CLOUD_PROJECT" else None) in
  let loc := js_or (location p) (if canReadEnv then env "GOOGLE_CLOUD_LOCATION" else None) in
  match construct isP canReadEnv env p with
  | inl e => (e = VertexProjectMissing /\ truthy proj = false) \/
             (e = VertexLocationMissing /\ truthy proj = true /\ truthy loc = false)
  | inr g => truthy proj = true /\ truthy loc = true /\
             self_vertexai g = true /\ self_project g = proj /\ self_location g = loc /\
             self_apiKey g = apiKey p
  end.
Proof.
  intros Hv Hsw proj loc. subst proj loc. revert Hsw.
  unfold construct. cbv zeta. rewrite Hv. unfold js_or.
  destruct canReadEnv, (isP (gemini_model (model p))); truthy_cases;
    intuition congruence.
Qed.

(** [GOOGLE_GENAI_USE_VERTEXAI] selects Vertex AI mode whenever the
    parameters do not ([vertexai] absent or [false]), [process] can be read
    and the model is not a Gemini 3 preview: a constructed instance is in
    Vertex AI mode exactly when the variable is ['true'] in any letter case
    or ['1']. *)
Theorem construct_env_vertex_flag (isP : string -> bool) (env : Env) (p : GeminiParams) g :
  vertexai p <> Some true ->
  isP (gemini_model (model p)) = false ->
  construct isP true env p = inr g ->
  let v := or_empty (env "GOOGLE_GENAI_USE_VERTEXAI") in
  self_vertexai g = String.eqb (toLowerCase v) "true" || String.eqb v "1".
Proof.
  intros Hv Hp H v. subst v. unfold construct in H. cbv zeta in H.
  assert (Hu : match vertexai p with Some b => b | None => false end = false)
    by (destruct (vertexai p) as [[|]|]; congruence).
  rewrite Hu, Hp in H. simpl in H.
  destruct (truthy (env "GOOGLE_GENAI_USE_VERTEXAI")) eqn:Et.
  - destruct (String.eqb (toLowerCase (or_empty (env "GOOGLE_GENAI_USE_VERTEXAI"))) "true" ||
              String.eqb (or_empty (env "GOOGLE_GENAI_USE_VERTEXAI")) "1");
      split_ifs; try discriminate; injection H as <-; reflexivity.
  - unfold truthy, or_empty in *. destruct (env "GOOGLE_GENAI_USE_VERTEXAI") as [s|].
    + apply negb_false_iff, String.eqb_eq in Et. subst s.
      split_ifs; try discriminate; injection H as <-; reflexivity.
    + split_ifs; try discriminate; injection H as <-; reflexivity.
Qed.

(** The API client built for a constructed instance: in Vertex AI mode it
    gets [vertexai: true], no API key and no custom base URL; in API key
    mode it gets [vertexai: false], the key, and as base URL the first
    truthy of the [apiEndpoint] parameter, [GEMINI_API_ENDPOINT] and, for a
    Gemini 3 preview model, the aiplatform endpoint, with [apiVersion: '']
    exactly for preview models. *)
Theorem construct_apiClient (isP : string -> bool) (canReadEnv : bool) (env : Env)
    (p : GeminiParams) g trackingHeaders :
  construct isP canReadEnv env p = inr g ->
  let c := apiClient trackingHeaders g in
  (self_vertexai g = true ->
     co_vertexai c = Some true /\ co_apiKey c = None /\
     http_baseUrl (co_httpOptions c) = None /\ http_apiVersion (co_httpOptions c) = None) /\
  (self_vertexai g = false ->
     co_vertexai c = Some false /\ co_apiKey c = self_apiKey g /\
     http_baseUrl (co_httpOptions c) =
       (if truthy (apiEndpoint p) then apiEndpoint p
        else if canReadEnv && truthy (env "GEMINI_API_ENDPOINT") then env "GEMINI_API_ENDPOINT"
        else if isP (gemini_model (model p)) then Some GEMINI3_PREVIEW_API_ENDPOINT
        else None) /\
     http_apiVersion (co_httpOptions c) =
       (if isP (gemini_model (model p)) then Some "" else None)).
Proof.
  unfold construct, apiClient, js_or. cbv zeta.
  destruct (vertexai p) as [[|]|]; atom_cases; intros H; try discriminate;
    injection H as <-; simpl in *; try discriminate; atom_cases; intuition congruence.
Qed.

Lemma lookup_spread (a b : Headers) (k : string) :
  spread a b !! k = match b !! k with Some v => Some v | None => a !! k end.
Proof.
  unfold spread. destruct (b !! k) as [v|] eqn:Hb.
  - apply lookup_union_Some_raw. left. exact Hb.
  - destruct (a !! k) as [v|] eqn:Ha.
    + apply lookup_union_Some_raw. right. split; assumption.
    + apply lookup_union_None. split; assumption.
Qed.

(** Headers: the API client sends the constructor's [headers] over the
    tracking headers of the same name, while the live client gets the
    tracking headers only; the live client never gets the Vertex AI
    settings, and its API version is [''] for a preview model with an
    endpoint, else ['v1beta1'] in Vertex AI mode and ['v1alpha'] otherwise. *)
Theorem client_headers_and_live_client trackingHeaders g :
  (exists h, http_headers (co_httpOptions (apiClient trackingHeaders g)) = Some h /\
     forall k, h !! k =
       match match self_headers g with Some hs => hs !! k | None => None end with
       | Some v => Some v
       | None => trackingHeaders !! k
       end) /\
  let c := liveApiClient trackingHeaders g in
  http_headers (co_httpOptions c) = Some trackingHeaders /\
  co_vertexai c = None /\ co_project c = None /\ co_location c = None /\
  co_apiKey c = self_apiKey g /\
  http_apiVersion (co_httpOptions c) =
    Some (if self_isGemini3Preview g && truthy (self_apiEndpoint g) then ""
          else if self_vertexai g then "v1beta1" else "v1alpha").
Proof.
  split.
  - eexists. split.
    + unfold apiClient. destruct (self_vertexai g); [reflexivity|].
      destruct (truthy (self_apiEndpoint g)); reflexivity.
    + intros k. rewrite lookup_spread. destruct (self_headers g) as [hs|]; [|by rewrite lookup_empty].
      reflexivity.
  - unfold liveApiClient, liveApiVersion, apiBackend, apiClient.
    destruct (self_vertexai g), (self_isGemini3Preview g), (truthy (self_apiEndpoint g));
      simpl; repeat split.
Qed.

(** [connect] throws when the request has no [liveConnectConfig];
    otherwise it connects with [llmRequest.model] ([this.model] only when
    absent), always replaces the live config's [tools] by
    [config?.tools], and, when the live config has [httpOptions], lets the
    tracking headers override the request's headers of the same name and
    sets the API version. *)
Theorem connect_live_config trackingHeaders g llmRequest :
  match connect trackingHeaders g llmRequest with
  | None => req_liveConnectConfig llmRequest = None
  | Some (req', (m, lc)) =>
      exists lc0, req_liveConnectConfig llmRequest = Some lc0 /\
      req_liveConnectConfig req' = Some lc /\
      m = match req_model llmRequest with Some m => m | None => self_model g end /\
      live_tools lc = match req_config llmRequest with Some c => cfg_tools c | None => None end /\
      forall ho, live_httpOptions lc0 = Some ho ->
        exists h, live_httpOptions lc =
          Some (mkHttpOpts (Some h)
                  (Some (if self_isGemini3Preview g then ""
                         else if self_vertexai g then "v1beta1" else "v1alpha"))
                  (http_baseUrl ho)) /\
        forall k, h !! k =
          match trackingHeaders !! k with
          | Some v => Some v
          | None => match http_headers ho with Some h0 => h0 !! k | None => None end
          end
  end.
Proof.
  unfold connect. destruct (req_liveConnectConfig llmRequest) as [lc0|] eqn:El; [|reflexivity].
  exists lc0. split; [reflexivity|]. split; [reflexivity|]. split; [reflexivity|].
  split; [reflexivity|].
  intros ho Hho. rewrite Hho.
  assert (Hv : liveApiVersion trackingHeaders g =
               if self_vertexai g then "v1beta1" else "v1alpha").
  { unfold liveApiVersion, apiBackend, apiClient. by destruct (self_vertexai g). }
  rewrite Hv.
  eexists. split.
  - destruct (truthy _); reflexivity.
  - intros k. rewrite lookup_spread. destruct (trackingHeaders !! k); [reflexivity|].
    destruct (http_headers ho); [reflexivity|]. by rewrite lookup_empty.
Qed.

(** On the Gemini API backend, [preprocessRequest] clears [labels] and
    every truthy [displayName] of the [inlineData] and [fileData] of every
    part, changes nothing else, and a second pass changes nothing; on
    Vertex AI it leaves the request as it is. *)
Theorem preprocessRequest_gemini_api llmRequest :
  let r := preprocessRequest GEMINI_API llmRequest in
  (forall c, req_config r = Some c -> labels c = None) /\
  (forall cs c ps part, req_contents r = Some cs -> In c cs -> content_parts c = Some ps ->
     In part ps ->
     (forall d, inlineData part = Some d -> truthy (displayName d) = false) /\
     (forall d, fileData part = Some d -> truthy (displayName d) = false)) /\
  eraseRequest r = eraseRequest llmRequest /\
  preprocessRequest GEMINI_API r = r /\
  preprocessRequest VERTEX_AI llmRequest = llmRequest.
Proof.
  assert (Hrm : forall d x, removeDisplayNameIfPresent d = Some x -> truthy (displayName x) = false).
  { intros [o|] x; simpl; [|discriminate].
    destruct (truthy (displayName o)) eqn:E; intros H; injection H as <-; [reflexivity|exact E]. }
  assert (Her : forall d, eraseData (removeDisplayNameIfPresent d) = eraseData d).
  { intros [o|]; simpl; [destruct (truthy (displayName o)); reflexivity|reflexivity]. }
  assert (Hid : forall d, removeDisplayNameIfPresent (removeDisplayNameIfPresent d) =
                          removeDisplayNameIfPresent d).
  { intros [o|]; simpl; [|reflexivity].
    destruct (truthy (displayName o)) eqn:E; simpl; [reflexivity|by rewrite E]. }
  assert (Hpart : forall part, preprocessPart (preprocessPart part) = preprocessPart part).
  { intros [t i f]. unfold preprocessPart. simpl. by rewrite !Hid. }
  assert (Hcont : forall c, preprocessContent (preprocessContent c) = preprocessContent c).
  { intros [ro [ps|]]; unfold preprocessContent; simpl; [|reflexivity].
    rewrite map_map. do 2 f_equal. apply map_ext. exact Hpart. }
  assert (Hecont : forall c, eraseContent (preprocessContent c) = eraseContent c).
  { intros [ro [ps|]]; unfold preprocessContent, eraseContent; simpl; [|reflexivity].
    rewrite map_map. do 2 f_equal. apply map_ext.
    intros [t i f]. unfold erasePart, preprocessPart. simpl. by rewrite !Her. }
  destruct llmRequest as [m cs c lc]. split; [|split; [|split; [|split]]].
  - destruct c; simpl; intros ? H; [injection H as <-; reflexivity|discriminate].
  - intros cs' c' ps part Hcs Hc Hps Hin. destruct cs as [cs0|]; simpl in Hcs; [|discriminate].
    injection Hcs as <-. apply in_map_iff in Hc as (c0 & <- & _).
    unfold preprocessContent in Hps. destruct (content_parts c0) as [ps0|] eqn:Ec;
      simpl in Hps; [|congruence].
    injection Hps as <-. apply in_map_iff in Hin as (p0 & <- & _).
    split; intros d Hd; exact (Hrm _ _ Hd).
  - unfold eraseRequest. simpl. f_equal.
    + destruct cs as [cs0|]; simpl; [|reflexivity]. rewrite map_map. f_equal.
      apply map_ext. exact Hecont.
    + by destruct c.
  - unfold preprocessRequest. simpl. f_equal.
    + destruct cs as [cs0|]; simpl; [|reflexivity]. rewrite map_map. f_equal.
      apply map_ext. exact Hcont.
    + by destruct c.
  - reflexivity.
Qed.

(** Witness of [construct_has_credentials]: no parameters and only
    [GEMINI_API_KEY] set. *)
Lemma construct_has_credentials_witness :
  construct sample_isPreview true env_api_key params_empty =
    inr (mkGemini "gemini-2.5-flash" (Some "key-1") false None None None None false) /\
  truthy (Some "key-1") = true.
Proof.
  split; [reflexivity|].
  exact (proj2 (construct_has_credentials sample_isPreview true env_api_key params_empty
                  (mkGemini "gemini-2.5-flash" (Some "key-1") false None None None None false)
                  eq_refl) eq_refl).
Defined.

(** Witness of [construct_api_key_mode]: the key comes from
    [GEMINI_API_KEY]. *)
Lemma construct_api_key_mode_witness :
  match construct sample_isPreview true env_api_key params_empty with
  | inl e => e = ApiKeyMissing /\ truthy (Some "key-1") = false
  | inr g => self_vertexai g = false /\ self_apiKey g = Some "key-1" /\
             truthy (Some "key-1") = true
  end.
Proof.
  exact (construct_api_key_mode sample_isPreview true env_api_key params_empty
           ltac:(discriminate) (or_intror eq_refl)).
Defined.

(** Witness of [construct_preview_prefers_api_key]: [vertexai: true] with
    a preview model and [GEMINI_API_KEY] set. *)
Lemma construct_preview_prefers_api_key_witness :
  exists g, construct sample_isPreview true env_api_key params_preview_vertex = inr g /\
    self_vertexai g = false /\ self_apiKey g = Some "key-1" /\ self_isGemini3Preview g = true.
Proof.
  exact (construct_preview_prefers_api_key sample_isPreview true env_api_key
           params_preview_vertex eq_refl eq_refl).
Defined.

(** Witness of [construct_vertex_mode]: the project from the parameters,
    the location from [GOOGLE_CLOUD_LOCATION]. *)
Lemma construct_vertex_mode_witness :
  match construct sample_isPreview true env_vertex params_vertex with
  | inl e => (e = VertexProjectMissing /\ truthy (Some "proj-0") = false) \/
             (e = VertexLocationMissing /\ truthy (Some "proj-0") = true /\
              truthy (Some "us-central1") = false)
  | inr g => truthy (Some "proj-0") = true /\ truthy (Some "us-central1") = true /\
             self_vertexai g = true /\ self_project g = Some "proj-0" /\
             self_location g = Some "us-central1" /\ self_apiKey g = None
  end.
Proof.
  exact (construct_vertex_mode sample_isPreview true env_vertex params_vertex
           eq_refl (or_introl eq_refl)).
Defined.

(** Witness of [construct_env_vertex_flag]: [GOOGLE_GENAI_USE_VERTEXAI]
    is ['TRUE']. *)
Lemma construct_env_vertex_flag_witness :
  self_vertexai (mkGemini "gemini-2.5-flash" None true (Some "proj-1") (Some "us-central1")
                   None None false) = true.
Proof.
  exact (construct_env_vertex_flag sample_isPreview env_vertex params_empty
           (mkGemini "gemini-2.5-flash" None true (Some "proj-1") (Some "us-central1")
              None None false)
           ltac:(discriminate) eq_refl eq_refl).
Defined.

(** Witness of [construct_apiClient]: a preview model in API key mode
    gets the aiplatform endpoint and the empty API version. *)
Lemma construct_apiClient_witness :
  let c := apiClient ∅ (mkGemini "gemini-3-pro-preview" (Some "key-1") false None None None
                          (Some GEMINI3_PREVIEW_API_ENDPOINT) true) in
  http_baseUrl (co_httpOptions c) = Some GEMINI3_PREVIEW_API_ENDPOINT /\
  http_apiVersion (co_httpOptions c) = Some "".
Proof.
  destruct (construct_apiClient sample_isPreview true env_api_key params_preview_vertex
              (mkGemini "gemini-3-pro-preview" (Some "key-1") false None None None
                 (Some GEMINI3_PREVIEW_API_ENDPOINT) true) ∅ eq_refl) as [_ H].
  destruct (H eq_refl) as (_ & _ & Hb & Hv).
  split; [exact Hb|exact Hv].
Defined.

End GeminiConfigProofs.

Module RuntimeSessionProofs.
Import Runtime.

Lemma fold_app (es1 es2 : list Event) (st : State) :
  fold (es1 ++ es2) st = fold es2 (fold es1 st).
Proof. unfold fold. by rewrite fold_left_app. Qed.

Lemma appendAll_events_state (es : list Event) : forall (s : Session),
  events (appendAll s es) = (events s ++ es)%list /\
  state (appendAll s es) = fold es (state s).
Proof.
  induction es as [|e es IH]; intros s; simpl.
  - by rewrite app_nil_r.
  - destruct (IH (appendEvent s e)) as [H1 H2]. rewrite H1, H2. simpl.
    split; [by rewrite <- app_assoc|reflexivity].
Qed.

(** Claim C1: appending the events of [E] one by one to a fresh session
    (each event's delta applied as it is appended) yields the state that
    replaying [E] from the empty state with [fold] yields, prefix by
    prefix. *)
Theorem fold_incremental_eq_replay (app user sid : string) (E : list Event) :
  forall n,
    state (appendAll (createSession app user sid None) (take n E)) =
    fold (take n E) ∅ /\
    state (appendAll (createSession app user sid None) E) = fold E ∅ /\
    events (appendAll (createSession app user sid None) E) = E.
Proof.
  intros n. split; [|split].
  - apply appendAll_events_state.
  - apply appendAll_events_state.
  - apply appendAll_events_state.
Qed.

End RuntimeSessionProofs.

Module RuntimeProofs.
Import Runtime RuntimeSessionProofs RuntimeSamples.
Open Scope list_scope.

(** *** The scheduler follows the step relation *)

Lemma is_fin_sound (r : Run) : is_fin r = true -> fin r.
Proof.
  induction r as [c n cfg ls|rs IH|rs IH|c subs mx k body last IH] using Run_ind'; simpl.
  - destruct ls; try discriminate; intros _; constructor.
  - destruct rs; [intros _; constructor|discriminate].
  - intros H. constructor. rewrite Forall_forall in IH |- *. intros x Hx.
    apply IH; [exact Hx|]. rewrite forallb_forall in H. by apply H, list_elem_of_In.
  - discriminate.
Qed.

Lemma step_first_sound (s : Session) (r : Run) :
  forall l r', step_first r s = Some (l, r') -> step r s l r'.
Proof.
  induction r as [c n cfg ls|rs IH|rs IH|c subs mx k body last IH] using Run_ind'; simpl.
  - intros l r'. destruct (leaf_step c n cfg ls s) as [[e ls']|] eqn:E; [|discriminate].
    intros H; injection H as <- <-. by constructor.
  - destruct rs as [|r1 rs]; [discriminate|]. inversion IH as [|? ? IH1 _]; subst.
    intros l r'. destruct (is_fin r1) eqn:F.
    + intros H; injection H as <- <-. apply step_seq_next. by apply is_fin_sound.
    + destruct (step_first r1 s) as [[[e|] r1']|] eqn:E; [| |discriminate];
        intros H; injection H as <- <-.
      * by apply step_seq_emit, IH1.
      * by apply step_seq_tau, IH1.
  - intros lab r' H.
    match type of H with
    | ?go 0%nat rs = _ =>
        assert (G : forall l i, (forall j x, l !! j = Some x -> rs !! (i + j)%nat = Some x) ->
                  Forall (fun r => forall l r', step_first r s = Some (l, r') -> step r s l r') l ->
                  go i l = Some (lab, r') -> step (RPar rs) s lab r')
    end.
    { induction l as [|x l' IHl]; intros i Hl HF; simpl; [discriminate|].
      inversion HF as [|? ? Hx HF']; subst.
      destruct (step_first x s) as [[lab' x']|] eqn:E.
      - intros Heq; injection Heq as <- <-. apply step_par with x.
        + specialize (Hl 0%nat x eq_refl). by rewrite Nat.add_0_r in Hl.
        + by apply Hx.
      - apply IHl; [|exact HF']. intros j y Hy.
        replace (S i + j)%nat with (i + S j)%nat by lia. by apply (Hl (S j)). }
    apply (G rs 0%nat); [|exact IH|exact H]. intros j x Hx. exact Hx.
  - intros l r'. destruct (is_fin body) eqn:F.
    + intros H; injection H as <- <-. apply step_loop_next. by apply is_fin_sound.
    + destruct (step_first body s) as [[[e|] body']|] eqn:E; [| |discriminate];
        intros H; injection H as <- <-.
      * by apply step_loop_emit, IH.
      * by apply step_loop_tau, IH.
Qed.

Lemma run_first_sound (fuel : nat) : forall r s tr s',
  run_first fuel r s = Some (tr, s') -> drive r s tr s'.
Proof.
  induction fuel as [|f IH]; intros r s tr s'; simpl; [discriminate|].
  destruct (is_fin r) eqn:F.
  - intros H; injection H as <- <-. exists r. split; [constructor|by apply is_fin_sound].
  - destruct (step_first r s) as [[[e|] r']|] eqn:E; [| |discriminate].
    + destruct (run_first f r' (appendEvent s e)) as [[tr1 s1]|] eqn:E2; [|discriminate].
      intros H; injection H as <- <-.
      destruct (IH _ _ _ _ E2) as (r'' & Hs & Hf). exists r''. split; [|exact Hf].
      eapply steps_emit; [by apply step_first_sound|exact Hs].
    + intros H. destruct (IH _ _ _ _ H) as (r'' & Hs & Hf). exists r''. split; [|exact Hf].
      eapply steps_tau; [by apply step_first_sound|exact Hs].
Qed.

(** *** Append-then-forward *)

Lemma steps_snapshots r s tr r' s' :
  steps r s tr r' s' ->
  s' = appendAll s (map fst tr) /\
  (forall tr1 e snap tr2, tr = tr1 ++ (e, snap) :: tr2 ->
     snap = appendEvent (appendAll s (map fst tr1)) e).
Proof.
  induction 1 as [r s|r s r' tr r'' s'' _ _ IH|r s e r' tr r'' s'' _ _ IH].
  - split; [reflexivity|]. intros tr1 e snap tr2 H. destruct tr1; discriminate.
  - exact IH.
  - destruct IH as [IH1 IH2]. split; [exact IH1|].
    intros tr1 e' snap tr2 H. destruct tr1 as [|p tr1]; simpl in H.
    + injection H as <- <- _. reflexivity.
    + injection H as <- H. simpl. exact (IH2 _ _ _ _ H).
Qed.

Lemma appendAll_consistent (init : State) (es : list Event) (s : Session) :
  state s = fold (events s) init ->
  state (appendAll s es) = fold (events (appendAll s es)) init.
Proof.
  intros H. destruct (appendAll_events_state es s) as [H1 H2].
  rewrite H1, H2, H, fold_app. reflexivity.
Qed.

Lemma appendEvent_consistent (init : State) (e : Event) (s : Session) :
  state s = fold (events s) init ->
  state (appendEvent s e) = fold (events (appendEvent s e)) init.
Proof. intros H. exact (appendAll_consistent init [e] s H). Qed.

Lemma withInput_consistent (init : State) inv ni (s : Session) :
  state s = fold (events s) init ->
  state (withInput inv ni s) = fold (events (withInput inv ni s)) init.
Proof. intros H. destruct ni; [apply appendEvent_consistent, H|exact H]. Qed.

Lemma createSession_consistent app user sid (init : State) :
  state (createSession app user sid (Some init)) =
  fold (events (createSession app user sid (Some init))) init.
Proof. reflexivity. Qed.

(** Claim C2 (as amended): in every run of the Runner on a session whose
    state is its creation-time state [init] updated by the fold of its
    events, each forwarded event is paired with the session just after
    that event was appended, its delta applied; at each forward and at the
    end the state equals [init] updated by the fold of the whole log. *)
Theorem runner_append_then_forward svc app user sid inv root ni tr s' s0 (init : State) :
  svc !! (app, user, sid) = Some s0 ->
  state s0 = fold (events s0) init ->
  run svc app user sid inv root ni (RunOk tr s') ->
  (forall tr1 e snap tr2, tr = tr1 ++ (e, snap) :: tr2 ->
     snap = appendEvent (appendAll (withInput inv ni s0) (map fst tr1)) e /\
     state snap = fold (events snap) init) /\
  state s' = fold (events s') init.
Proof.
  intros Hl Hc Hr. inversion Hr as [|s0' tr' s'' Hl' (r' & Hs & _)]; subst.
  rewrite Hl in Hl'. injection Hl' as <-.
  destruct (steps_snapshots _ _ _ _ _ Hs) as [H1 H2].
  pose proof (withInput_consistent init inv ni s0 Hc) as Hc1.
  split.
  - intros tr1 e snap tr2 H. specialize (H2 _ _ _ _ H). split; [exact H2|].
    rewrite H2. apply appendEvent_consistent, appendAll_consistent, Hc1.
  - rewrite H1. apply appendAll_consistent, Hc1.
Qed.


Lemma helloRun_drive :
  drive (start (newInvocation "inv-1" (agentName helloLeaf)) helloLeaf)
    (withInput "inv-1" (Some "hi") timedSession) helloTrace helloFinal.
Proof. apply (run_first_sound 10). vm_compute. reflexivity. Defined.

Lemma runner_append_then_forward_witness :
  (forall tr1 e snap tr2, helloTrace = tr1 ++ (e, snap) :: tr2 ->
     snap = appendEvent (appendAll (withInput "inv-1" (Some "hi") timedSession) (map fst tr1)) e /\
     state snap = fold (events snap) timedInit) /\
  state helloFinal = fold (events helloFinal) timedInit.
Proof.
  apply (runner_append_then_forward timedStore "app" "user" "s1" "inv-1" helloLeaf (Some "hi")
           helloTrace helloFinal timedSession timedInit).
  - vm_compute. reflexivity.
  - reflexivity.
  - eapply run_ok; [vm_compute; reflexivity|exact helloRun_drive].
Defined.

(** Claim C2, as stated, fails: with a session created with an initial
    state, as the CLI's input-file mode creates it, the state at a forward
    is not the fold of the appended events' deltas alone. *)
Lemma runner_state_is_fold_of_log_counterexample :
  ~ (forall svc app user sid inv root ni tr s',
       run svc app user sid inv root ni (RunOk tr s') ->
       forall e snap, In (e, snap) tr -> state snap = fold (events snap) ∅).
Proof.
  intros H.
  specialize (H timedStore "app" "user" "s1" "inv-1" helloLeaf (Some "hi") helloTrace helloFinal).
  assert (Hr : run timedStore "app" "user" "s1" "inv-1" helloLeaf (Some "hi") (RunOk helloTrace helloFinal)).
  { eapply run_ok; [vm_compute; reflexivity|exact helloRun_drive]. }
  specialize (H Hr). clear Hr.
  destruct helloTrace as [|[e snap] rest] eqn:E.
  - vm_compute in E. discriminate.
  - specialize (H e snap (or_introl eq_refl)).
    vm_compute in E. injection E as <- <- _.
    apply (f_equal (lookup "_time")) in H. vm_compute in H. discriminate.
Qed.


(** *** Runs that are finished do not move *)

Lemma step_not_fin r s l r' : step r s l r' -> ~ fin r.
Proof.
  induction 1 as [ctx n cfg ls s e ls' H| | | |rs i r s l r' Hi _ IH| | |];
    intros Hf; inversion Hf; subst; simpl in *; try congruence.
  match goal with HF : Forall fin _ |- _ => rewrite Forall_lookup in HF; apply IH; eauto end.
Qed.

Lemma steps_from_fin r s tr r' s' : steps r s tr r' s' -> fin r -> tr = [] /\ r' = r /\ s' = s.
Proof.
  destruct 1 as [| r s r1 tr r'' s'' Hs _| r s e r1 tr r'' s'' Hs _]; intros Hf.
  - auto.
  - exfalso. exact (step_not_fin _ _ _ _ Hs Hf).
  - exfalso. exact (step_not_fin _ _ _ _ Hs Hf).
Qed.

Lemma steps_app r s tr1 r1 s1 tr2 r2 s2 :
  steps r s tr1 r1 s1 -> steps r1 s1 tr2 r2 s2 -> steps r s (tr1 ++ tr2) r2 s2.
Proof.
  induction 1; intros H2; simpl; [exact H2| |].
  - eapply steps_tau; eauto.
  - eapply steps_emit; eauto.
Qed.

Lemma steps_state r s tr r' s' :
  steps r s tr r' s' ->
  events s' = events s ++ map fst tr /\ state s' = fold (map fst tr) (state s).
Proof.
  intros H. destruct (steps_snapshots _ _ _ _ _ H) as [-> _]. apply appendAll_events_state.
Qed.

Lemma lookup_applyDelta (st : State) (d : StateDelta) k :
  applyDelta st d !! k = match d !! k with Some v => Some v | None => st !! k end.
Proof.
  unfold applyDelta, State, StateDelta in *. rewrite lookup_union.
  by destruct (d !! k), (st !! k).
Qed.

(** The value of a key after a fold: the sequence's last write to it, or
    else its value before. *)
Lemma fold_lookup (es : list Event) : forall (st : State) k,
  fold es st !! k = match last_write k es with Some v => Some v | None => st !! k end.
Proof.
  induction es as [|e es IH]; intros st k; [reflexivity|].
  change (fold (e :: es) st) with (fold es (applyDelta st (stateDelta e))).
  rewrite IH, lookup_applyDelta. simpl. by destruct (last_write k es).
Qed.

(** *** Failed branches *)

Lemma aborted_fin r : aborted r = true -> fin r.
Proof. destruct r as [? ? ? []| | |]; try discriminate. intros _. constructor. Qed.

Lemma start_not_aborted c a : aborted (start c a) = false.
Proof.
  destruct a as [? ?|? ?|? ?|? mx subs]; try reflexivity. simpl.
  destruct subs; [reflexivity|]. destruct mx as [[|]|]; reflexivity.
Qed.

(** A run is failed only by the step that emits the terminal error event
    of a failed model call. *)
Lemma step_to_aborted r s l r' :
  step r s l r' -> aborted r' = true ->
  exists e msg, l = Emit e /\ content e = ErrorContent msg.
Proof.
  induction 1 as [ctx n cfg ls s e ls' Hl|r rs s e r' Hr IH|r rs s r' Hr IH|r rs s Hf
                 |rs i r s l r' Hi Hr IH|ctx subs mx k body last s e body' Hb IH
                 |ctx subs mx k body last s body' Hb IH|ctx subs mx k body last s Hf];
    simpl; intros Ha; try discriminate.
  - destruct ls'; try discriminate.
    destruct ls as [|[|c cs]| |]; simpl in Hl; try discriminate.
    + destruct (model cfg (instruction cfg) (conversation ctx s)) as [t|msg].
      * injection Hl as _ Hls. destruct (turn_calls t); discriminate.
      * injection Hl as <-. by exists (mkEv ctx n (ErrorContent msg) ∅ false), msg.
    + destruct (invokeTool cfg c (state s)) as [[? ?] ?]. injection Hl as _ Hls.
      destruct cs; discriminate.
  - destruct (escalate e); [discriminate|]. destruct (aborted r') eqn:A; [|discriminate].
    exact (IH eq_refl).
  - destruct (aborted body') eqn:A; [exact (IH eq_refl)|discriminate].
  - unfold loop_next in Ha. destruct (lastEscalates last); [discriminate|].
    destruct mx as [m|]; [destruct (S k <? m)%nat|]; discriminate.
Qed.

Lemma step_tau_not_aborted r s r' : step r s Tau r' -> aborted r' = false.
Proof.
  intros H. destruct (aborted r') eqn:A; [|reflexivity].
  destruct (step_to_aborted _ _ _ _ H A) as (e & msg & He & _). discriminate.
Qed.

Lemma steps_aborted_errLast r s tr r' s' :
  steps r s tr r' s' -> aborted r = false -> aborted r' = true -> errLast tr.
Proof.
  induction 1 as [r s|r s r1 tr r'' s'' Hst _ IH|r s e r1 tr r'' s'' Hst Hs IH];
    intros Ha Ha'.
  - congruence.
  - exact (IH (step_tau_not_aborted _ _ _ Hst) Ha').
  - destruct (aborted r1) eqn:A.
    + destruct (step_to_aborted _ _ _ _ Hst A) as (e1 & msg & He & Hc).
      injection He as <-.
      destruct (steps_from_fin _ _ _ _ _ Hs (aborted_fin _ A)) as (-> & _ & _).
      exists [], (e, appendEvent s e), msg. split; [reflexivity|exact Hc].
    + destruct (IH eq_refl Ha') as (tr1 & p & msg & -> & Hc).
      exists ((e, appendEvent s e) :: tr1), p, msg. split; [reflexivity|exact Hc].
Qed.

(** *** Sequential composition *)

Lemma seq_steps r rs s tr r' s' :
  steps (RSeq (r :: rs)) s tr r' s' -> aborted r = false ->
  (exists r1, r' = RSeq (r1 :: rs) /\ steps r s tr r1 s' /\ noEsc tr /\ aborted r1 = false) \/
  (exists tr1 r1 s1 tr2, tr = tr1 ++ tr2 /\ steps r s tr1 r1 s1 /\ fin r1 /\ aborted r1 = false /\
     noEsc tr1 /\ steps (RSeq rs) s1 tr2 r' s') \/
  (exists r1, steps r s tr r1 s' /\ r' = RSeq [] /\ escLast tr) \/
  (steps r s tr r' s' /\ aborted r' = true /\ noEsc tr).
Proof.
  intros H. remember (RSeq (r :: rs)) as x eqn:Hx. revert r Hx.
  induction H as [x s|x s x1 tr r'' s'' Hst Hs IH|x s e x1 tr r'' s'' Hst Hs IH];
    intros r0 Hx Ha; subst x.
  - left. exists r0. split; [reflexivity|]. split; [constructor|]. split; [constructor|exact Ha].
  - inversion Hst as [| |r1 rs1 s1 r1' Hr EQ1 EQ2 EQ3 EQ4|r1 rs1 s1 Hf EQ1 EQ2 EQ3 EQ4| | | |];
      subst.
    + destruct (IH r1' eq_refl (step_tau_not_aborted _ _ _ Hr))
        as [(r2 & -> & Hs2 & Hn & Ha2)|[(tr1 & r2 & s2 & tr2 & -> & Hs2 & Hf & Ha2 & Hn & Hrest)
           |[(r2 & Hs2 & -> & He)|(Hs2 & Ha2 & Hn)]]].
      * left. exists r2. split; [reflexivity|]. split; [eapply steps_tau; eauto|auto].
      * right; left. exists tr1, r2, s2, tr2. repeat split; eauto. eapply steps_tau; eauto.
      * right; right; left. exists r2. split; [eapply steps_tau; eauto|]. split; [reflexivity|exact He].
      * right; right; right. split; [eapply steps_tau; eauto|auto].
    + right; left. exists [], r0, s, tr.
      repeat split; [constructor|exact Hf|exact Ha|constructor|exact Hs].
  - inversion Hst as [|r1 rs1 s1 e1 r1' Hr EQ1 EQ2 EQ3 EQ4| | | | | |]; subst.
    destruct (escalate e) eqn:Ee.
    + destruct (steps_from_fin _ _ _ _ _ Hs fin_seq) as (-> & -> & ->).
      right; right; left. exists r1'. split.
      * eapply steps_emit; [exact Hr|constructor].
      * split; [reflexivity|]. exists [], (e, appendEvent s e). repeat split; [exact Ee|constructor].
    + destruct (aborted r1') eqn:A.
      * destruct (steps_from_fin _ _ _ _ _ Hs (aborted_fin _ A)) as (-> & -> & ->).
        right; right; right. split; [eapply steps_emit; [exact Hr|constructor]|].
        split; [exact A|by constructor].
      * destruct (IH r1' eq_refl A)
          as [(r2 & -> & Hs2 & Hn & Ha2)|[(tr1 & r2 & s2 & tr2 & -> & Hs2 & Hf & Ha2 & Hn & Hrest)
             |[(r2 & Hs2 & -> & He)|(Hs2 & Ha2 & Hn)]]].
        -- left. exists r2. split; [reflexivity|]. split; [eapply steps_emit; eauto|].
           split; [by constructor|exact Ha2].
        -- right; left. exists ((e, appendEvent s e) :: tr1), r2, s2, tr2.
           repeat split; [by eapply steps_emit|exact Hf|exact Ha2|by constructor|exact Hrest].
        -- right; right; left. exists r2. split; [eapply steps_emit; eauto|]. split; [reflexivity|].
           destruct He as (tr1 & p & -> & Hp & Hn).
           exists ((e, appendEvent s e) :: tr1), p. repeat split; [exact Hp|by constructor].
        -- right; right; right. split; [eapply steps_emit; eauto|]. split; [exact Ha2|by constructor].
Qed.

Lemma seq_single_steps r s tr r' s' :
  steps (RSeq [r]) s tr r' s' -> aborted r = false -> fin r' ->
  exists r1, steps r s tr r1 s' /\ (fin r1 \/ escLast tr).
Proof.
  intros H Ha Hf. destruct (seq_steps _ _ _ _ _ _ H Ha)
    as [(r1 & -> & _)|[(tr1 & r1 & s1 & tr2 & -> & Hs1 & Hf1 & _ & _ & Hrest)
       |[(r1 & Hs1 & _ & He)|(Hs1 & _ & _)]]].
  - inversion Hf.
  - destruct (steps_from_fin _ _ _ _ _ Hrest fin_seq) as (-> & _ & ->).
    exists r1. rewrite app_nil_r. auto.
  - exists r1. auto.
  - exists r'. auto.
Qed.

(** Claim C3: a run of [Sequential n [A; B]] forwards the events of A's
    run, then those of B's run; B starts against the session holding all of
    A's events, whose state is A's deltas folded over the state before A,
    so that every key A writes holds A's last value for it. B does not run
    only when A stopped the sequence with an escalating event, or when a
    failed model call ended A's run, and with it the shared branch, with
    its terminal error event. *)
Theorem sequential_order_and_visibility ctx n A B s tr s' :
  drive (start ctx (Sequential n [A; B])) s tr s' ->
  exists trA trB rA sA rB,
    tr = trA ++ trB /\
    steps (start ctx A) s trA rA sA /\
    events sA = events s ++ map fst trA /\
    state sA = fold (map fst trA) (state s) /\
    (forall k v, last_write k (map fst trA) = Some v -> state sA !! k = Some v) /\
    ((fin rA /\ aborted rA = false /\ steps (start ctx B) sA trB rB s' /\ (fin rB \/ escLast trB)) \/
     (trB = [] /\ s' = sA /\ (escLast trA \/ (aborted rA = true /\ errLast trA)))).
Proof.
  intros (r' & Hs & Hf). simpl in Hs.
  destruct (seq_steps _ _ _ _ _ _ Hs (start_not_aborted ctx A))
    as [(r1 & -> & _)|[(tr1 & r1 & s1 & tr2 & -> & Hs1 & Hf1 & Ha1 & _ & Hrest)
       |[(r1 & Hs1 & -> & He)|(Hs1 & Ha1 & _)]]].
  - inversion Hf.
  - destruct (seq_single_steps _ _ _ _ _ Hrest (start_not_aborted ctx B) Hf) as (rB & HsB & HB).
    destruct (steps_state _ _ _ _ _ Hs1) as [Hev Hst].
    exists tr1, tr2, r1, s1, rB. repeat split; [exact Hs1|exact Hev|exact Hst| |].
    + intros k v Hk. rewrite Hst, fold_lookup, Hk. reflexivity.
    + left. auto.
  - destruct (steps_state _ _ _ _ _ Hs1) as [Hev Hst].
    exists tr, [], r1, s', r1. rewrite app_nil_r. repeat split; [exact Hs1|exact Hev|exact Hst| |].
    + intros k v Hk. rewrite Hst, fold_lookup, Hk. reflexivity.
    + right. auto.
  - destruct (steps_state _ _ _ _ _ Hs1) as [Hev Hst].
    exists tr, [], r', s', r'. rewrite app_nil_r. repeat split; [exact Hs1|exact Hev|exact Hst| |].
    + intros k v Hk. rewrite Hst, fold_lookup, Hk. reflexivity.
    + right. split; [reflexivity|]. split; [reflexivity|]. right. split; [exact Ha1|].
      exact (steps_aborted_errLast _ _ _ _ _ Hs1 (start_not_aborted ctx A) Ha1).
Qed.


(** Sample: B's tool reads the key A wrote. *)
Example seqAB_reader_observes_x :
  In (ToolResultContent "call-get_x" (ToolValue "1")) (map (fun p => content (fst p)) (trace_of seqRun)).
Proof. vm_compute. tauto. Qed.

Lemma sequential_order_and_visibility_witness :
  exists trA trB rA sA rB,
    trace_of seqRun = trA ++ trB /\
    steps (start ctx0 writerA) session0 trA rA sA /\
    events sA = events session0 ++ map fst trA /\
    state sA = fold (map fst trA) (state session0) /\
    (forall k v, last_write k (map fst trA) = Some v -> state sA !! k = Some v) /\
    ((fin rA /\ aborted rA = false /\ steps (start ctx0 readerB) sA trB rB (final_of seqRun) /\
      (fin rB \/ escLast trB)) \/
     (trB = [] /\ final_of seqRun = sA /\ (escLast trA \/ (aborted rA = true /\ errLast trA)))).
Proof.
  apply (sequential_order_and_visibility ctx0 "pipeline" writerA readerB session0).
  apply (run_first_sound 50). vm_compute. reflexivity.
Defined.

(** *** Loop composition *)

Lemma loop_steps c subs mx k body last s tr r' s' :
  steps (RLoop c subs mx k body last) s tr r' s' -> aborted body = false ->
  (exists body', r' = RLoop c subs mx k body' (lastOf tr last) /\ steps body s tr body' s') \/
  (exists tr1 b1 s1 tr2, tr = tr1 ++ tr2 /\ steps body s tr1 b1 s1 /\ fin b1 /\
     aborted b1 = false /\
     steps (loop_next c subs mx (S k) (lastOf tr1 last)) s1 tr2 r' s') \/
  (steps body s tr r' s' /\ aborted r' = true).
Proof.
  intros H. remember (RLoop c subs mx k body last) as x eqn:Hx. revert body last Hx.
  induction H as [x s|x s x1 tr r'' s'' Hst Hs IH|x s e x1 tr r'' s'' Hst Hs IH];
    intros body last Hx Ha; subst x.
  - left. exists body. split; [reflexivity|constructor].
  - inversion Hst as [| | | | |? ? ? ? ? ? ? ? ? Hb|? ? ? ? ? ? ? ? Hb|? ? ? ? ? ? ? Hf]; subst.
    + destruct (IH _ _ eq_refl (step_tau_not_aborted _ _ _ Hb))
        as [(b2 & -> & Hs2)|[(tr1 & b1 & s1 & tr2 & -> & Hs1 & Hf & Ha1 & Hrest)|(Hs2 & Ha2)]].
      * left. exists b2. split; [reflexivity|]. eapply steps_tau; eauto.
      * right; left. exists tr1, b1, s1, tr2.
        repeat split; [eapply steps_tau; eauto|exact Hf|exact Ha1|exact Hrest].
      * right; right. split; [eapply steps_tau; eauto|exact Ha2].
    + right; left. exists [], body, s, tr. repeat split; [constructor|exact Hf|exact Ha|exact Hs].
  - inversion Hst as [| | | | |? ? ? ? ? ? ? ? ? Hb|? ? ? ? ? ? ? ? Hb|]; subst.
    destruct (aborted body') eqn:A.
    + destruct (steps_from_fin _ _ _ _ _ Hs (aborted_fin _ A)) as (-> & -> & ->).
      right; right. split; [eapply steps_emit; [exact Hb|constructor]|exact A].
    + destruct (IH _ _ eq_refl A)
        as [(b2 & -> & Hs2)|[(tr1 & b1 & s1 & tr2 & -> & Hs1 & Hf & Ha1 & Hrest)|(Hs2 & Ha2)]].
      * left. exists b2. split; [reflexivity|]. eapply steps_emit; eauto.
      * right; left. exists ((e, appendEvent s e) :: tr1), b1, s1, tr2.
        repeat split; [eapply steps_emit; eauto|exact Hf|exact Ha1|exact Hrest].
      * right; right. split; [eapply steps_emit; eauto|exact Ha2].
Qed.

Lemma loop_iterations ctx subs m (d : nat) : forall k s tr r' s',
  d = (m - k)%nat -> (k < m)%nat ->
  steps (RLoop ctx subs (Some m) k (iteration ctx subs) None) s tr r' s' -> fin r' ->
  exists its f, tr = concat its /\ iterations ctx subs s its f s' /\
    (1 <= length its)%nat /\ (k + length its <= m)%nat /\
    (forall i it, (S i < length its)%nat -> its !! i = Some it -> lastEscalates (lastOf it None) = false) /\
    (f = true -> exists it, last its = Some it /\ errLast it) /\
    ((k + length its)%nat = m \/ f = true \/
     exists it, last its = Some it /\ lastEscalates (lastOf it None) = true).
Proof.
  induction d as [|d IH]; intros k s tr r' s' Hd Hk Hs Hf; [lia|].
  destruct (loop_steps _ _ _ _ _ _ _ _ _ _ Hs eq_refl)
    as [(b & -> & _)|[(tr1 & b1 & s1 & tr2 & -> & Hs1 & Hf1 & Ha1 & Hrest)|(Hs1 & Ha1)]].
  { inversion Hf. }
  - unfold loop_next in Hrest. destruct (lastEscalates (lastOf tr1 None)) eqn:E1.
    + destruct (steps_from_fin _ _ _ _ _ Hrest fin_seq) as (-> & _ & ->).
      exists [tr1], false. simpl. rewrite app_nil_r. repeat split.
      * econstructor; [exact Hs1|exact Hf1|exact Ha1|constructor].
      * lia.
      * lia.
      * intros i it Hi. simpl in Hi. lia.
      * discriminate.
      * right; right. exists tr1. auto.
    + destruct (S k <? m)%nat eqn:E2.
      * apply Nat.ltb_lt in E2.
        destruct (IH (S k) s1 tr2 r' s' ltac:(lia) E2 Hrest Hf)
          as (its & f & -> & Hits & H1 & H2 & H3 & Hfl & H4).
        exists (tr1 :: its), f. simpl. repeat split.
        -- econstructor; [exact Hs1|exact Hf1|exact Ha1|exact Hits].
        -- lia.
        -- lia.
        -- intros [|i] it Hi Hit; simpl in Hit.
           ++ injection Hit as <-. exact E1.
           ++ apply (H3 i); [simpl in Hi; lia|exact Hit].
        -- intros Hft. destruct (Hfl Hft) as (it & Hl & He). exists it.
           destruct its as [|it1 its]; [simpl in H1; lia|]. split; [exact Hl|exact He].
        -- destruct H4 as [H4|[H4|(it & Hl & He)]]; [left; lia|right; left; exact H4|right; right].
           exists it. destruct its as [|it1 its]; [simpl in H1; lia|]. split; [exact Hl|exact He].
      * apply Nat.ltb_ge in E2.
        destruct (steps_from_fin _ _ _ _ _ Hrest fin_seq) as (-> & _ & ->).
        exists [tr1], false. simpl. rewrite app_nil_r. repeat split.
        -- econstructor; [exact Hs1|exact Hf1|exact Ha1|constructor].
        -- lia.
        -- lia.
        -- intros i it Hi. simpl in Hi. lia.
        -- discriminate.
        -- left. lia.
  - exists [tr], true. simpl. rewrite app_nil_r. repeat split.
    + eapply iter_fail; [exact Hs1|exact Ha1].
    + lia.
    + lia.
    + intros i it Hi. simpl in Hi. lia.
    + intros _. exists tr. split; [reflexivity|].
      exact (steps_aborted_errLast _ _ _ _ _ Hs1 eq_refl Ha1).
    + right; left. reflexivity.
Qed.

(** Claim C4 (as amended): a complete run of [Loop n (Some m) subs]
    (non-empty [subs]) is the concatenation of [k <= m] iterations of its
    body, all complete but possibly the last, which a failed model call
    may have cut short with its terminal error event; no iteration but the
    last ends with an escalating event. So the Loop stops after the first
    iteration whose last event escalates, or after the first model-call
    failure, or else after exactly [m] iterations. *)
Theorem loop_termination ctx n m subs s tr s' :
  subs <> [] ->
  drive (start ctx (Loop n (Some m) subs)) s tr s' ->
  exists its failed, tr = concat its /\ iterations ctx subs s its failed s' /\
    (length its <= m)%nat /\
    (forall i it, (S i < length its)%nat -> its !! i = Some it -> lastEscalates (lastOf it None) = false) /\
    (failed = true -> exists it, last its = Some it /\ errLast it) /\
    (length its = m \/ failed = true \/
     exists it, last its = Some it /\ lastEscalates (lastOf it None) = true).
Proof.
  intros Hne (r' & Hs & Hf). destruct subs as [|a subs]; [congruence|].
  destruct m as [|m].
  - simpl in Hs. destruct (steps_from_fin _ _ _ _ _ Hs fin_seq) as (-> & _ & ->).
    exists [], false. simpl.
    repeat split; [constructor|lia|intros i it Hi; simpl in Hi; lia|discriminate|left; reflexivity].
  - simpl in Hs.
    destruct (loop_iterations ctx (a :: subs) (S m) (S m - 0) 0 s tr r' s' eq_refl ltac:(lia) Hs Hf)
      as (its & f & -> & Hits & _ & H2 & H3 & Hfl & H4).
    exists its, f. repeat split; [exact Hits|lia|exact H3|exact Hfl|].
    destruct H4 as [H4|H4]; [left; lia|right; exact H4].
Qed.

Lemma loop_termination_witness :
  exists its failed, trace_of loop3Run = concat its /\
    iterations ctx0 [Leaf "check" (leafCfg textModel [])] session0 its failed (final_of loop3Run) /\
    (length its <= 3)%nat /\
    (forall i it, (S i < length its)%nat -> its !! i = Some it -> lastEscalates (lastOf it None) = false) /\
    (failed = true -> exists it, last its = Some it /\ errLast it) /\
    (length its = 3%nat \/ failed = true \/
     exists it, last its = Some it /\ lastEscalates (lastOf it None) = true).
Proof.
  apply (loop_termination ctx0 "monitor" 3 [Leaf "check" (leafCfg textModel [])] session0).
  - discriminate.
  - apply (run_first_sound 50). vm_compute. reflexivity.
Defined.

(** The run of a Leaf whose model always fails: nothing yet, or its
    terminal error event, after which it is failed. *)
Lemma failing_leaf_steps c n ts s tr r1 s1 :
  steps (RLeaf c n (leafCfg failingModel ts) AwaitingModel) s tr r1 s1 ->
  (tr = [] /\ r1 = RLeaf c n (leafCfg failingModel ts) AwaitingModel) \/
  (exists e, tr = [(e, appendEvent s e)] /\ escalate e = false /\
     r1 = RLeaf c n (leafCfg failingModel ts) LeafFailed).
Proof.
  intros H. inversion H as [|r s0 r' tr0 r'' s'' Hst Hs|r s0 e r' tr0 r'' s'' Hst Hs]; subst.
  - left. auto.
  - inversion Hst.
  - inversion Hst as [c1 n1 cfg1 ls1 s2 e1 ls' Hl| | | | | | |]; subst.
    simpl in Hl. injection Hl as <- <-.
    destruct (steps_from_fin _ _ _ _ _ Hs (fin_failed _ _ _)) as (-> & -> & ->).
    right. eexists. split; [reflexivity|]. split; reflexivity.
Qed.

(** No iteration of a Loop over [failingLeaf] completes: it is failed. *)
Lemma failing_iteration_aborts c s it rb s1 :
  steps (iteration c [failingLeaf]) s it rb s1 -> fin rb -> aborted rb = true.
Proof.
  intros H Hf. unfold iteration in H. simpl in H.
  destruct (seq_steps _ _ _ _ _ _ H eq_refl)
    as [(r1 & -> & _)|[(tr1 & r1 & s2 & tr2 & -> & Hs1 & Hf1 & Ha1 & _ & _)
       |[(r1 & Hs1 & _ & He)|(_ & Ha & _)]]].
  - inversion Hf.
  - exfalso. destruct (failing_leaf_steps _ _ _ _ _ _ _ Hs1) as [[_ ->]|(e & _ & _ & ->)].
    + inversion Hf1.
    + discriminate.
  - exfalso. destruct He as (tr1 & p & Htr & Hp & _).
    destruct (failing_leaf_steps _ _ _ _ _ _ _ Hs1) as [[-> _]|(e & -> & He & _)].
    + destruct tr1; discriminate.
    + destruct tr1 as [|q tr1]; simpl in Htr.
      * injection Htr as <-. simpl in Hp. congruence.
      * injection Htr as _ Htr. destruct tr1; discriminate.
  - exact Ha.
Qed.

(** Claim C4, as stated, fails: a Loop with cap 3 whose sub-agent's
    model call fails stops after its first, failed, iteration, which
    neither ends with an escalating event nor brings the count to 3; no
    decomposition of the run into complete iterations exists. *)
Lemma loop_stops_only_on_escalation_or_cap_counterexample :
  ~ (forall ctx n m subs s tr s',
       subs <> [] ->
       drive (start ctx (Loop n (Some m) subs)) s tr s' ->
       exists its, tr = concat its /\ iterations ctx subs s its false s' /\
         (length its = m \/ exists it, last its = Some it /\ lastEscalates (lastOf it None) = true)).
Proof.
  intros H.
  assert (Hd : drive (start ctx0 failingLoop) session0 (trace_of failLoopRun) (final_of failLoopRun)).
  { apply (run_first_sound 50). vm_compute. reflexivity. }
  destruct (H ctx0 "monitor" 3 [failingLeaf] session0 _ _ ltac:(discriminate) Hd)
    as (its & Htr & Hits & _).
  destruct its as [|it its].
  - vm_compute in Htr. discriminate.
  - inversion Hits as [|? ? rb s1 ? ? ? Hs1 Hf1 Ha1 _|]; subst.
    rewrite (failing_iteration_aborts _ _ _ _ _ Hs1 Hf1) in Ha1. discriminate.
Qed.

(** Sample: that Loop forwards the error event alone. *)
Example failingLoop_stops_after_first :
  map (fun p => content (fst p)) (trace_of failLoopRun) = [ErrorContent "model unavailable"].
Proof. vm_compute. reflexivity. Qed.

(** Samples: with cap 3 and no escalation, three iterations of one event
    each; with cap 5 and an escalation on the second iteration, the run
    ends with that iteration's escalating tool result. *)
Example monitorLoop_three_iterations :
  map (fun p => author (fst p)) (trace_of loop3Run) = ["check"; "check"; "check"].
Proof. vm_compute. reflexivity. Qed.

Example exitingLoop_stops_after_second :
  map (fun p => (is_model_turn (fst p), escalate (fst p))) (trace_of exit5Run) =
  [(true, false); (true, false); (false, true)].
Proof. vm_compute. reflexivity. Qed.


(** *** The Tool-Invocation Loop *)

Lemma leaf_steps_shape ctx n cfg ls s tr r' s' :
  steps (RLeaf ctx n cfg ls) s tr r' s' -> fin r' -> shape_from ls (map fst tr).
Proof.
  intros H. remember (RLeaf ctx n cfg ls) as x eqn:Hx. revert ls Hx.
  induction H as [x s|x s x1 tr r'' s'' Hst Hs IH|x s e x1 tr r'' s'' Hst Hs IH];
    intros ls0 Hx Hf; subst x.
  - inversion Hf; subst; reflexivity.
  - inversion Hst.
  - inversion Hst as [c n1 cfg1 ls1 s1 e1 ls' Hl| | | | | | |]; subst.
    specialize (IH ls' eq_refl Hf). simpl.
    destruct ls0 as [|[|c cs]| |]; simpl in Hl; try discriminate.
    + destruct (model cfg (instruction cfg) (conversation ctx s)) as [t|msg];
        injection Hl as <- <-.
      * destruct (turn_calls t) as [|c cs] eqn:Ec; simpl in IH.
        -- rewrite IH. by apply (shape_final _ t).
        -- destruct IH as (rs & rest & -> & Hrs & Hrest).
           apply (shape_tools _ t); [reflexivity|by rewrite Ec|by rewrite Ec|exact Hrest].
      * rewrite (IH : map fst tr = []). by apply (shape_fail _ msg).
    + destruct (invokeTool cfg c (state s)) as [[payload d] esc]. injection Hl as <- <-.
      destruct cs as [|c' cs]; simpl in IH.
      * exists [mkEv ctx n (ToolResultContent (call_id c) payload) d esc], (map fst tr).
        split; [reflexivity|]. split; [|exact IH]. constructor; [|constructor]. by exists payload.
      * destruct IH as (rs & rest & -> & Hrs & Hrest).
        exists (mkEv ctx n (ToolResultContent (call_id c) payload) d esc :: rs), rest.
        split; [reflexivity|]. split; [|exact Hrest]. constructor; [|exact Hrs]. by exists payload.
Qed.

Lemma results_turnCalls cs rs rest :
  Forall2 (fun c r => exists p, content r = ToolResultContent (call_id c) p) cs rs ->
  turnCalls (rs ++ rest) = turnCalls rest /\
  countToolResults (rs ++ rest) = (length cs + countToolResults rest)%nat.
Proof.
  induction 1 as [|c r cs rs (p & Hp) _ [IH1 IH2]]; [split; reflexivity|].
  destruct r as [? ? ? cr ? ?]. simpl in Hp. subst cr.
  unfold countToolResults in *. simpl. split; [exact IH1|]. rewrite IH2. reflexivity.
Qed.

(** A Leaf's turns all carry calls but its last one, which carries none
    unless the loop ended on a failed model call; there is one tool result
    per call. *)
Lemma shape_counts evs :
  leaf_shape evs ->
  countToolResults evs = sum_list (turnCalls evs) /\
  ((exists L, turnCalls evs = L ++ [0%nat] /\ Forall (fun x => 1 <= x)%nat L /\
      exists evs1 e t, evs = evs1 ++ [e] /\ content e = ModelTurnContent t /\ turn_calls t = []) \/
   (Forall (fun x => 1 <= x)%nat (turnCalls evs) /\
      exists evs1 e msg, evs = evs1 ++ [e] /\ content e = ErrorContent msg)).
Proof.
  induction 1 as [e t He Ht|e msg He|e t rs rest He Ht Hrs _ [IH1 IH2]].
  - split.
    + destruct e as [i a b ce d x]. simpl in He. subst ce. simpl. rewrite Ht. reflexivity.
    + left. exists []. split.
      * destruct e as [i a b ce d x]. simpl in He. subst ce. simpl. rewrite Ht. reflexivity.
      * split; [constructor|]. exists [], e, t. auto.
  - split.
    + destruct e as [i a b ce d x]. simpl in He. subst ce. reflexivity.
    + right. split.
      * destruct e as [i a b ce d x]. simpl in He. subst ce. constructor.
      * exists [], e, msg. auto.
  - destruct (results_turnCalls _ _ rest Hrs) as [T1 T2].
    assert (Hlen : (1 <= length (turn_calls t))%nat).
    { destruct (turn_calls t); [congruence|simpl; lia]. }
    assert (Hte : turnCalls (e :: rs ++ rest) = length (turn_calls t) :: turnCalls rest).
    { destruct e as [i a b ce d x]. simpl in He. subst ce. simpl. rewrite T1. reflexivity. }
    assert (Hce : countToolResults (e :: rs ++ rest) = countToolResults (rs ++ rest)).
    { destruct e as [i a b ce d x]. simpl in He. subst ce. reflexivity. }
    rewrite Hte, Hce. split.
    + rewrite T2, IH1, (Forall2_length _ _ _ Hrs). simpl. lia.
    + destruct IH2 as [(L & HL & HF & evs1 & e1 & t1 & -> & H1 & H2)|(HF & evs1 & e1 & msg & -> & H1)].
      * left. exists (length (turn_calls t) :: L). rewrite HL. split; [reflexivity|].
        split; [by constructor|]. exists (e :: rs ++ evs1), e1, t1.
        split; [by rewrite app_assoc|auto].
      * right. split; [by constructor|]. exists (e :: rs ++ evs1), e1, msg.
        split; [by rewrite app_assoc|auto].
Qed.

Lemma calls_110 (L L' : list nat) :
  Forall (fun x => 1 <= x)%nat L -> L ++ [0%nat] = [1; 1; 0] ++ L' -> L' = [] /\ L = [1; 1]%nat.
Proof.
  intros HF H. destruct L as [|a [|b [|c L3]]]; simpl in H; try discriminate.
  - injection H as -> -> H. destruct L'; [auto|discriminate].
  - injection H as _ _ Hc _. subst c. inversion HF as [|? ? _ HF1]. inversion HF1 as [|? ? _ HF2].
    inversion HF2 as [|? ? Hc _]. lia.
Qed.

(** Claim C5 (as amended): the Leaf's loop alternates model turns with
    the results of their calls and ends exactly after a model turn without
    calls, or after the error event of a failed model call; so when its
    first three model turns carry one, one and no call, it yields exactly
    three model-turn events and two tool-result events and ends with the
    third turn. *)
Theorem leaf_tool_loop_terminates ctx n cfg s tr s' :
  drive (start ctx (Leaf n cfg)) s tr s' ->
  leaf_shape (map fst tr) /\
  (take 3 (turnCalls (map fst tr)) = [1; 1; 0]%nat ->
     turnCalls (map fst tr) = [1; 1; 0]%nat /\ countToolResults (map fst tr) = 2%nat /\
     exists tr1 p t, tr = tr1 ++ [p] /\ content (fst p) = ModelTurnContent t /\ turn_calls t = []).
Proof.
  intros (r' & Hs & Hf).
  pose proof (leaf_steps_shape _ _ _ _ _ _ _ _ Hs Hf) as Hsh. simpl in Hsh.
  split; [exact Hsh|]. intros Ht.
  destruct (shape_counts _ Hsh) as [Hc [(L & HL & HF & evs1 & e & t & Hev & He & Htc)|(HF & _)]].
  - assert (HL' : L ++ [0%nat] = [1; 1; 0]%nat ++ drop 3 (turnCalls (map fst tr))).
    { rewrite <- HL. rewrite <- Ht. by rewrite take_drop. }
    destruct (calls_110 _ _ HF HL') as [Hd ->]. simpl in HL.
    split; [exact HL|]. split; [rewrite Hc, HL; reflexivity|].
    destruct tr as [|p tr0] using rev_ind; [simpl in Hev; destruct evs1; discriminate|].
    rewrite map_app in Hev. simpl in Hev. apply app_inj_tail in Hev as [_ <-].
    exists tr0, p, t. auto.
  - exfalso. rewrite <- (take_drop 3 (turnCalls (map fst tr))), Ht in HF.
    inversion HF as [|? ? _ HF1]. inversion HF1 as [|? ? _ HF2]. inversion HF2 as [|? ? Hz _]. lia.
Qed.

Lemma leaf_tool_loop_terminates_witness :
  leaf_shape (map fst (trace_of toolLoopRun)) /\
  (take 3 (turnCalls (map fst (trace_of toolLoopRun))) = [1; 1; 0]%nat ->
     turnCalls (map fst (trace_of toolLoopRun)) = [1; 1; 0]%nat /\
     countToolResults (map fst (trace_of toolLoopRun)) = 2%nat /\
     exists tr1 p t, trace_of toolLoopRun = tr1 ++ [p] /\ content (fst p) = ModelTurnContent t /\
       turn_calls t = []).
Proof.
  apply (leaf_tool_loop_terminates ctx0 "helper" (leafCfg (callingModel "lookup" 2) [("lookup", constTool "42")])
           session0 (trace_of toolLoopRun) (final_of toolLoopRun)).
  apply (run_first_sound 50). vm_compute. reflexivity.
Defined.

Example toolLoopLeaf_counts :
  turnCalls (map fst (trace_of toolLoopRun)) = [1; 1; 0]%nat /\
  countToolResults (map fst (trace_of toolLoopRun)) = 2%nat.
Proof. vm_compute. split; reflexivity. Qed.

(** Claim C5, as stated, fails: a Leaf whose model call fails ends its
    loop with the error event, not with a turn without calls. *)
Lemma leaf_ends_only_on_call_free_turn_counterexample :
  ~ (forall ctx n cfg s tr s',
       drive (start ctx (Leaf n cfg)) s tr s' ->
       exists tr1 p t, tr = tr1 ++ [p] /\ content (fst p) = ModelTurnContent t /\ turn_calls t = []).
Proof.
  intros H.
  assert (Hd : drive (start ctx0 failingLeaf) session0 (trace_of failRun) (final_of failRun)).
  { apply (run_first_sound 50). vm_compute. reflexivity. }
  destruct (H _ _ _ _ _ _ Hd) as (tr1 & p & t & Htr & Hc & _).
  assert (Hlast : map (fun q => content (fst q)) (trace_of failRun) = [ErrorContent "model unavailable"]).
  { vm_compute. reflexivity. }
  rewrite Htr, map_app in Hlast. simpl in Hlast. rewrite Hc in Hlast.
  destruct tr1 as [|q tr1]; simpl in Hlast; [discriminate|].
  injection Hlast as _ Hl. destruct tr1; discriminate.
Qed.

(** *** Tool failures *)

Lemma prefix_refl (b : string) : String.prefix b b = true.
Proof.
  induction b as [|a b IH]; [reflexivity|]. simpl.
  destruct (Ascii.ascii_dec a a); [exact IH|congruence].
Qed.

(** Claim C6: when the called tool fails, the Leaf's only step is to emit
    a tool-result event carrying the call's id and the error payload, and
    the loop goes on: to the next call of the turn, or back to
    [AwaitingModel] after the last one; the event is part of the
    conversation every later model call of this context receives. *)
Theorem tool_failure_reported_as_data ctx n cfg c cs s tool err :
  resolveTool (tools cfg) (call_name c) = Some tool ->
  tool (call_args c) (state s) = ToolFailed err ->
  let e := mkEv ctx n (ToolResultContent (call_id c) (ToolErrorPayload err)) ∅ false in
  (forall l r', step (RLeaf ctx n cfg (ExecutingTools (c :: cs))) s l r' <->
     l = Emit e /\
     r' = RLeaf ctx n cfg (match cs with [] => AwaitingModel | _ => ExecutingTools cs end)) /\
  (forall s'', (exists more, events s'' = events (appendEvent s e) ++ more) ->
     In e (conversation ctx s'')).
Proof.
  intros Hres Hfail e. split.
  - intros l r'. split.
    + intros Hst. inversion Hst as [c1 n1 cfg1 ls1 s1 e1 ls' Hl| | | | | | |]; subst.
      simpl in Hl. unfold invokeTool in Hl. rewrite Hres, Hfail in Hl.
      injection Hl as <- <-. split; reflexivity.
    + intros [-> ->]. constructor. simpl. unfold invokeTool. rewrite Hres, Hfail. reflexivity.
  - intros s'' (more & Hm). unfold conversation. rewrite Hm.
    apply list_elem_of_In, list_elem_of_filter. split.
    + unfold visible. simpl. apply prefix_refl.
    + apply elem_of_app. left. apply elem_of_app. right. left.
Qed.

Lemma tool_failure_reported_as_data_witness :
  let e := mkEv ctx0 "helper" (ToolResultContent "call-flaky" (ToolErrorPayload "boom")) ∅ false in
  (forall l r', step (RLeaf ctx0 "helper" (leafCfg (callingModel "flaky" 1) [("flaky", brokenTool)])
                       (ExecutingTools [mkCall "call-flaky" "flaky" "{}"])) session0 l r' <->
     l = Emit e /\ r' = RLeaf ctx0 "helper" (leafCfg (callingModel "flaky" 1) [("flaky", brokenTool)]) AwaitingModel) /\
  (forall s'', (exists more, events s'' = events (appendEvent session0 e) ++ more) ->
     In e (conversation ctx0 s'')).
Proof.
  exact (tool_failure_reported_as_data ctx0 "helper" (leafCfg (callingModel "flaky" 1) [("flaky", brokenTool)])
           (mkCall "call-flaky" "flaky" "{}") [] session0 brokenTool "boom" eq_refl eq_refl).
Defined.


(** *** Parallel composition *)

Section Forall3_insert.
Context {A B C : Type} (P : A -> B -> C -> Prop).

Lemma Forall3_insert_alter (l : list A) (k : list B) (k' : list C) i x x' (g : B -> B) :
  Forall3 P (<[i := x']> l) k k' -> l !! i = Some x ->
  (forall y z, P x' y z -> P x (g y) z) ->
  Forall3 P l (alter g i k) k'.
Proof.
  revert i k k'. induction l as [|a l IH]; intros [|i] k k' H Hl Hg; simpl in *; try discriminate.
  - injection Hl as ->. inversion H as [|? y ? z ? k2' Hp HF]; subst. simpl. constructor; auto.
  - inversion H as [|? y ? z ? k2' Hp HF]; subst. simpl. constructor; [exact Hp|]. eauto.
Qed.

End Forall3_insert.

Lemma list_alter_id_fun {T : Type} (l : list T) i : alter id i l = l.
Proof. revert i. induction l as [|a l IH]; intros [|i]; simpl; auto. f_equal. apply IH. Qed.

Lemma Forall3_emits_refl rs : Forall3 emits rs (replicate (length rs) []) rs.
Proof. induction rs; simpl; constructor; [constructor|assumption]. Qed.

Lemma par_steps rs s tr r' s' :
  steps (RPar rs) s tr r' s' ->
  exists rs' trs, r' = RPar rs' /\ Forall3 emits rs trs rs' /\ interleaving trs (map fst tr).
Proof.
  intros H. remember (RPar rs) as x eqn:Hx. revert rs Hx.
  induction H as [x s|x s x1 tr r'' s'' Hst Hs IH|x s e x1 tr r'' s'' Hst Hs IH];
    intros rs0 Hx; subst x.
  - exists rs0, (replicate (length rs0) []). split; [reflexivity|].
    split; [apply Forall3_emits_refl|constructor].
  - inversion Hst as [| | | |rs1 i r s1 l r1 Hi Hr EQ1 EQ2 EQ3 EQ4| | |]; subst.
    destruct (IH _ eq_refl) as (rs' & trs & -> & HF & Hil).
    exists rs', trs. split; [reflexivity|]. split; [|exact Hil].
    rewrite <- (list_alter_id_fun trs i).
    apply (Forall3_insert_alter _ _ _ _ i r r1); [exact HF|exact Hi|].
    intros y z Hy. eapply em_tau; eauto.
  - inversion Hst as [| | | |rs1 i r s1 l r1 Hi Hr EQ1 EQ2 EQ3 EQ4| | |]; subst.
    destruct (IH _ eq_refl) as (rs' & trs & -> & HF & Hil).
    exists rs', (alter (cons e) i trs). split; [reflexivity|]. split.
    + apply (Forall3_insert_alter _ _ _ _ i r r1); [exact HF|exact Hi|].
      intros y z Hy. eapply em_emit; eauto.
    + simpl. constructor; [|exact Hil].
      rewrite <- (Forall3_length_lm _ _ _ _ HF), length_insert.
      by apply lookup_lt_Some with r.
Qed.

Lemma alter_lookup_same {T : Type} (f : T -> T) (l : list T) j x :
  l !! j = Some x -> alter f j l !! j = Some (f x).
Proof. intros H. rewrite list_lookup_alter, H. case_decide; [reflexivity|congruence]. Qed.

Lemma interleaving_lookup trs evs :
  interleaving trs evs ->
  forall i evi k st, trs !! i = Some evi ->
  (forall j evj, j <> i -> trs !! j = Some evj -> Forall (fun e => stateDelta e !! k = None) evj) ->
  fold evs st !! k = fold evi st !! k.
Proof.
  induction 1 as [n|trs j e rest Hj Hil IH]; intros i evi k st Hi Hothers.
  - apply lookup_replicate in Hi as [-> _]. reflexivity.
  - change (fold (e :: rest) st) with (fold rest (applyDelta st (stateDelta e))).
    destruct (lookup_lt_is_Some_2 trs j Hj) as [evj Ej].
    destruct (decide (i = j)) as [->|Hne].
    + rewrite (alter_lookup_same _ _ _ _ Ej) in Hi. injection Hi as <-.
      change (fold (e :: evj) st) with (fold evj (applyDelta st (stateDelta e))).
      apply (IH j evj k); [exact Ej|]. intros j' evj' Hne' Hj'.
      apply (Hothers j'); [exact Hne'|]. rewrite list_lookup_alter_ne; auto.
    + rewrite list_lookup_alter_ne in Hi by congruence.
      assert (He : stateDelta e !! k = None).
      { assert (Hx : Forall (fun e => stateDelta e !! k = None) (e :: evj)).
        { apply (Hothers j); [congruence|]. by apply alter_lookup_same. }
        by inversion Hx. }
      rewrite (IH i evi k _ Hi).
      * rewrite !fold_lookup, lookup_applyDelta, He. reflexivity.
      * intros j' evj' Hne' Hj'. destruct (decide (j' = j)) as [->|Hne''].
        -- assert (Hx : Forall (fun e => stateDelta e !! k = None) (e :: evj')).
           { apply (Hothers j); [congruence|]. by apply alter_lookup_same. }
           by inversion Hx.
        -- apply (Hothers j'); [exact Hne'|]. rewrite list_lookup_alter_ne; auto.
Qed.

(** Branch strings. *)

Lemma prefix_app (b x y : string) : String.prefix b x = true -> String.prefix b (x ++ y)%string = true.
Proof.
  revert x. induction b as [|a b IH]; intros x H.
  - destruct (x ++ y)%string; reflexivity.
  - destruct x as [|c x]; simpl in H; [discriminate|]. simpl.
    destruct (Ascii.ascii_dec a c); [by apply IH|discriminate].
Qed.

Lemma prefix_empty (b : string) : String.prefix b "" = true -> b = "".
Proof. destruct b; simpl; [reflexivity|discriminate]. Qed.

Lemma derive_prefix b c seg :
  String.prefix b (ctx_branch c) = true -> String.prefix b (ctx_branch (derive c seg)) = true.
Proof.
  intros H. unfold derive. simpl. destruct (String.eqb (ctx_branch c) "") eqn:E.
  - apply String.eqb_eq in E. rewrite E in H. apply prefix_empty in H. subst b.
    destruct seg; reflexivity.
  - by apply prefix_app.
Qed.

Lemma string_app_inv_l (b x y : string) : (b ++ x = b ++ y)%string -> x = y.
Proof. induction b as [|a b IH]; simpl; [auto|]. intros H. injection H. exact IH. Qed.

Lemma derive_distinct c x y : x <> y -> ctx_branch (derive c x) <> ctx_branch (derive c y).
Proof.
  intros Hne. unfold derive. simpl. destruct (String.eqb (ctx_branch c) ""); [exact Hne|].
  intros H. apply string_app_inv_l in H. simpl in H. injection H. exact Hne.
Qed.

Lemma Forall_under_map b c subs :
  Forall (fun a => forall c, String.prefix b (ctx_branch c) = true -> under b (start c a)) subs ->
  String.prefix b (ctx_branch c) = true ->
  Forall (under b) (map (start c) subs).
Proof. induction 1; intros Hc; simpl; constructor; auto. Qed.

Lemma start_under b (a : Agent) : forall c,
  String.prefix b (ctx_branch c) = true -> under b (start c a).
Proof.
  induction a as [n cfg|n subs IH|n subs IH|n mx subs IH] using Agent_ind'; intros c Hc.
  - by constructor.
  - constructor. by apply Forall_under_map.
  - constructor. simpl. clear n. induction IH as [|a subs Ha _ IHl]; simpl; constructor.
    + apply Ha, derive_prefix, Hc.
    + exact IHl.
  - simpl. destruct subs as [|a0 subs0]; [constructor; constructor|].
    destruct mx as [[|m]|]; [constructor; constructor| |];
      (constructor; [exact Hc|constructor; by apply Forall_under_map]).
Qed.

Lemma leaf_step_branch ctx n cfg ls s e ls' :
  leaf_step ctx n cfg ls s = Some (e, ls') -> branch e = ctx_branch ctx.
Proof.
  destruct ls as [|[|c cs]| |]; simpl; try discriminate.
  - destruct (model cfg (instruction cfg) (conversation ctx s)); intros H; injection H as <- _; reflexivity.
  - destruct (invokeTool cfg c (state s)) as [[? ?] ?]. intros H. injection H as <- _. reflexivity.
Qed.

Lemma step_under b r s l r' :
  step r s l r' -> under b r ->
  under b r' /\ (forall e, l = Emit e -> String.prefix b (branch e) = true).
Proof.
  induction 1 as [ctx n cfg ls s e ls' Hl|r rs s e r' Hr IH|r rs s r' Hr IH|r rs s Hf
                 |rs i r s l r' Hi Hr IH|ctx subs mx k body last s e body' Hb IH
                 |ctx subs mx k body last s body' Hb IH|ctx subs mx k body last s Hf];
    intros Hu.
  - inversion Hu as [? ? ? ? Hp| | |]; subst. split; [by constructor|].
    intros e1 He1. injection He1 as <-. by rewrite (leaf_step_branch _ _ _ _ _ _ _ Hl).
  - inversion Hu as [|rs0 HF| |]; subst. inversion HF as [|? ? Hr1 Hrs]; subst.
    destruct (IH Hr1) as [Hu' He]. split.
    + destruct (escalate e); [constructor; constructor|].
      destruct (aborted r'); [exact Hu'|by constructor; constructor].
    + exact He.
  - inversion Hu as [|rs0 HF| |]; subst. inversion HF as [|? ? Hr1 Hrs]; subst.
    destruct (IH Hr1) as [Hu' He]. split; [by constructor; constructor|exact He].
  - inversion Hu as [|rs0 HF| |]; subst. inversion HF as [|? ? Hr1 Hrs]; subst.
    split; [by constructor|discriminate].
  - inversion Hu as [| |rs0 HF|]; subst.
    assert (Hr1 : under b r) by (rewrite Forall_lookup in HF; eauto).
    destruct (IH Hr1) as [Hu' He]. split; [constructor; by apply Forall_insert|exact He].
  - inversion Hu as [| | |? ? ? ? ? ? Hc Hb1]; subst. destruct (IH Hb1) as [Hu' He].
    split; [destruct (aborted body'); [exact Hu'|by constructor]|exact He].
  - inversion Hu as [| | |? ? ? ? ? ? Hc Hb1]; subst. destruct (IH Hb1) as [Hu' He].
    split; [by constructor|exact He].
  - inversion Hu as [| | |? ? ? ? ? ? Hc Hb1]; subst. split; [|discriminate].
    assert (Hit : under b (iteration ctx subs)).
    { constructor. clear Hu. induction subs as [|a subs IHs]; simpl; [apply List.Forall_nil|apply List.Forall_cons; [by apply start_under|exact IHs]]. }
    unfold loop_next. destruct (lastEscalates last); [constructor; constructor|].
    destruct mx as [m|]; [destruct (S k <? m)%nat|]; try (constructor; constructor);
      by constructor.
Qed.

Lemma emits_under b r evs r' :
  emits r evs r' -> under b r -> Forall (fun e => String.prefix b (branch e) = true) evs.
Proof.
  induction 1 as [r|r s r1 evs r'' Hst _ IH|r s e r1 evs r'' Hst _ IH]; intros Hu.
  - constructor.
  - apply IH. exact (proj1 (step_under _ _ _ _ _ Hst Hu)).
  - destruct (step_under _ _ _ _ _ Hst Hu) as [Hu' He]. constructor; [by apply He|by apply IH].
Qed.

(** Claim C7 (as amended): a complete run of [Parallel n [A; B]], under
    any interleaving of the branches, forwards an interleaving of a
    complete run of A in the context derived with A's name and one of B in
    the context derived with B's name, every event of each exactly once;
    the events of each branch carry that branch; a key that one branch
    never writes ends with the other branch's last value for it (or its
    value before); the two branches differ when the sub-agents' names do. *)
Theorem parallel_branches_merge ctx n A B s tr s' :
  drive (start ctx (Parallel n [A; B])) s tr s' ->
  exists evA evB rA rB,
    emits (start (derive ctx (agentName A)) A) evA rA /\ fin rA /\
    emits (start (derive ctx (agentName B)) B) evB rB /\ fin rB /\
    interleaving [evA; evB] (map fst tr) /\
    Forall (fun e => String.prefix (ctx_branch (derive ctx (agentName A))) (branch e) = true) evA /\
    Forall (fun e => String.prefix (ctx_branch (derive ctx (agentName B))) (branch e) = true) evB /\
    (forall k, Forall (fun e => stateDelta e !! k = None) evB ->
       state s' !! k = match last_write k evA with Some v => Some v | None => state s !! k end) /\
    (forall k, Forall (fun e => stateDelta e !! k = None) evA ->
       state s' !! k = match last_write k evB with Some v => Some v | None => state s !! k end) /\
    (agentName A <> agentName B ->
       ctx_branch (derive ctx (agentName A)) <> ctx_branch (derive ctx (agentName B))).
Proof.
  intros (r' & Hs & Hf). simpl in Hs.
  destruct (par_steps _ _ _ _ _ Hs) as (rs' & trs & -> & HF & Hil).
  apply Forall3_cons_inv_l in HF as (evA & trs1 & rA & rs1 & -> & -> & HA & HF).
  apply Forall3_cons_inv_l in HF as (evB & trs2 & rB & rs2 & -> & -> & HB & HF).
  inversion HF; subst.
  inversion Hf as [| |? Hfs|]; subst. inversion Hfs as [|? ? HfA Hfs1]; subst.
  inversion Hfs1 as [|? ? HfB _]; subst.
  destruct (steps_state _ _ _ _ _ Hs) as [_ Hst].
  exists evA, evB, rA, rB. repeat split; try assumption.
  - apply (emits_under _ _ _ _ HA), start_under, prefix_refl.
  - apply (emits_under _ _ _ _ HB), start_under, prefix_refl.
  - intros k Hk. rewrite Hst, (interleaving_lookup _ _ Hil 0 evA k _ eq_refl), fold_lookup.
    + reflexivity.
    + intros [|[|j]] evj Hj Hl; simpl in Hl; [congruence|injection Hl as <-; exact Hk|discriminate].
  - intros k Hk. rewrite Hst, (interleaving_lookup _ _ Hil 1 evB k _ eq_refl), fold_lookup.
    + reflexivity.
    + intros [|[|j]] evj Hj Hl; simpl in Hl; [injection Hl as <-; exact Hk|congruence|discriminate].
  - apply derive_distinct.
Qed.

Lemma parallel_branches_merge_witness :
  let A := Leaf "A" (leafCfg (callingModel "set_a" 1) [("set_a", writeTool "a" "from-A")]) in
  let B := Leaf "B" (leafCfg (callingModel "set_b" 1) [("set_b", writeTool "b" "from-B")]) in
  exists evA evB rA rB,
    emits (start (derive ctx0 (agentName A)) A) evA rA /\ fin rA /\
    emits (start (derive ctx0 (agentName B)) B) evB rB /\ fin rB /\
    interleaving [evA; evB] (map fst (trace_of parRun)) /\
    Forall (fun e => String.prefix (ctx_branch (derive ctx0 (agentName A))) (branch e) = true) evA /\
    Forall (fun e => String.prefix (ctx_branch (derive ctx0 (agentName B))) (branch e) = true) evB /\
    (forall k, Forall (fun e => stateDelta e !! k = None) evB ->
       state (final_of parRun) !! k =
       match last_write k evA with Some v => Some v | None => state session0 !! k end) /\
    (forall k, Forall (fun e => stateDelta e !! k = None) evA ->
       state (final_of parRun) !! k =
       match last_write k evB with Some v => Some v | None => state session0 !! k end) /\
    (agentName A <> agentName B ->
       ctx_branch (derive ctx0 (agentName A)) <> ctx_branch (derive ctx0 (agentName B))).
Proof.
  intros A B. apply (parallel_branches_merge ctx0 "fanout" A B session0).
  apply (run_first_sound 50). vm_compute. reflexivity.
Defined.

(** Sample: both keys are in the final state. *)
Example parallelAB_both_keys :
  state (final_of parRun) !! "a" = Some "from-A" /\ state (final_of parRun) !! "b" = Some "from-B".
Proof. vm_compute. split; reflexivity. Qed.

(** Claim C7, as stated, fails on its branch segments: the sub-agents of
    a Parallel agent may share a name, and their derived contexts then have
    the same branch. *)
Lemma parallel_branches_distinct_counterexample :
  ~ (forall ctx n A B s tr s',
       drive (start ctx (Parallel n [A; B])) s tr s' ->
       ctx_branch (derive ctx (agentName A)) <> ctx_branch (derive ctx (agentName B))).
Proof.
  intros H.
  assert (Hd : drive (start ctx0 dupParallel) session0 (trace_of dupRun) (final_of dupRun)).
  { apply (run_first_sound 50). vm_compute. reflexivity. }
  exact (H _ _ _ _ _ _ _ Hd eq_refl).
Qed.

End RuntimeProofs.
